(** * RealTimeTextEditor: the synchronization server (backend/server.ts)

    A shallow embedding of the Socket.IO server of the collaborative
    editor: the shared document, the [users] map, the typing set, the
    typing timeouts, and the six event handlers registered on a socket.
    The handlers are state-passing functions returning the new server
    state together with the list of messages they emit, in emission
    order. *)

From stdpp Require Import gmap strings list.


(** ** The quill-delta fragment used by the server

    [server.ts] imports [QuillDelta] from the npm package quill-delta and
    uses its constructor and its [compose] method.  The package is a
    dependency, not part of the repository; the module below follows its
    [Op], [OpIterator] and [Delta] classes on attribute-free operations
    whose inserts are strings of ASCII characters, for which the length
    in bytes used here is the length in UTF-16 code units that
    JavaScript uses.  A JavaScript number is a natural number or
    [Infinity]. *)
Module QuillDelta.

Inductive num := Fin (n : nat) | Infinity.

Definition num_add (a b : num) : num :=
  match a, b with
  | Fin x, Fin y => Fin (x + y)
  | _, _ => Infinity
  end.

(** [a - k] for a finite [k] (offsets are always finite). *)
Definition num_sub (a : num) (k : nat) : num :=
  match a with
  | Fin x => Fin (x - k)
  | Infinity => Infinity
  end.

Definition num_min (a b : num) : num :=
  match a, b with
  | Fin x, Fin y => Fin (x `min` y)
  | Fin x, Infinity => Fin x
  | Infinity, b => b
  end.

(** [a <= b] *)
Definition num_leb (a b : num) : bool :=
  match a, b with
  | Fin x, Fin y => (x <=? y)%nat
  | _, Infinity => true
  | Infinity, Fin _ => false
  end.

Definition num_is_zero (a : num) : bool :=
  match a with
  | Fin 0 => true
  | _ => false
  end.

Inductive Op :=
| insert (text : string)
| retain (n : num)
| delete (n : num).

Definition Delta := list Op.

Definition num_eqb (a b : num) : bool :=
  match a, b with
  | Fin x, Fin y => (x =? y)%nat
  | Infinity, Infinity => true
  | _, _ => false
  end.

(** lodash [isEqual] on two operations *)
Definition op_eqb (a b : Op) : bool :=
  match a, b with
  | insert s, insert t => String.eqb s t
  | retain n, retain m => num_eqb n m
  | delete n, delete m => num_eqb n m
  | _, _ => false
  end.

(** [Op.length] *)
Definition op_length (op : Op) : num :=
  match op with
  | delete n => n
  | retain n => n
  | insert text => Fin (String.length text)
  end.

(** [String.prototype.substr(offset, length)] *)
Definition substr (offset : nat) (length : num) (s : string) : string :=
  match length with
  | Fin n => String.substring offset n s
  | Infinity => String.substring offset (String.length s - offset) s
  end.

Inductive OpType := TInsert | TRetain | TDelete.

(** [OpIterator]: the operations, the index of the current one and the
    offset already consumed inside it. *)
Record OpIterator := mkIter {
  ops : list Op;
  index : nat;
  offset : nat
}.

Definition iterator (l : list Op) : OpIterator := mkIter l 0 0.

Definition peek (it : OpIterator) : option Op := ops it !! index it.

Definition peekLength (it : OpIterator) : num :=
  match ops it !! index it with
  | Some op => num_sub (op_length op) (offset it)
  | None => Infinity
  end.

Definition hasNext (it : OpIterator) : bool :=
  match peekLength it with
  | Fin _ => true
  | Infinity => false
  end.

Definition peekType (it : OpIterator) : OpType :=
  match ops it !! index it with
  | Some (delete _) => TDelete
  | Some (retain _) => TRetain
  | Some (insert _) => TInsert
  | None => TRetain
  end.

(** [next(length)]; [next()] is [next Infinity], and so is [next(0)]
    because of the [if (!length) length = Infinity] guard. *)
Definition next (length : num) (it : OpIterator) : Op * OpIterator :=
  let length := if num_is_zero length then Infinity else length in
  match ops it !! index it with
  | Some nextOp =>
      let remaining := num_sub (op_length nextOp) (offset it) in
      let '(length, it') :=
        if num_leb remaining length
        then (remaining, mkIter (ops it) (S (index it)) 0)
        else (length,
              mkIter (ops it) (index it)
                (offset it + match length with Fin n => n | Infinity => 0 end)) in
      (match nextOp with
       | delete _ => delete length
       | retain _ => retain length
       | insert text => insert (substr (offset it) length text)
       end, it')
  | None => (retain Infinity, it)
  end.

(** [rest()] *)
Definition rest (it : OpIterator) : list Op :=
  if negb (hasNext it) then []
  else if (offset it =? 0)%nat then drop (index it) (ops it)
  else
    let '(nxt, it') := next Infinity it in
    nxt :: drop (index it') (ops it').

(** The last element of an array and the array without it. *)
Definition unsnoc {A} (l : list A) : option (list A * A) :=
  match reverse l with
  | [] => None
  | x :: r => Some (reverse r, x)
  end.

(** [Delta.push]: merges the new operation into the last one when both
    have the same kind, and places an insert before a trailing delete. *)
Definition push (delta : Delta) (newOp : Op) : Delta :=
  match unsnoc delta with
  | None => delta ++ [newOp]
  | Some (front, lastOp) =>
      match newOp, lastOp with
      | delete n, delete m => front ++ [delete (num_add m n)]
      | insert text, delete m =>
          (* index -= 1; lastOp = this.ops[index - 1] *)
          match unsnoc front with
          | None => newOp :: delta
          | Some (front', insert text') =>
              front' ++ [insert (text' +:+ text); delete m]
          | Some (_, _) => front ++ [newOp; delete m]
          end
      | insert text, insert text' => front ++ [insert (text' +:+ text)]
      | retain n, retain m => front ++ [retain (num_add m n)]
      | _, _ => delta ++ [newOp]
      end
  end.

(** [Delta.chop]: drops a trailing retain. *)
Definition chop (delta : Delta) : Delta :=
  match unsnoc delta with
  | Some (front, retain _) => front
  | _ => delta
  end.

(** [Delta.concat] *)
Definition concat (delta other : Delta) : Delta :=
  match other with
  | [] => delta
  | op :: others => push delta op ++ others
  end.

(** The leading loop of [compose]: while the other delta starts with a
    plain retain, whole inserts of this delta that fit in it are copied
    unchanged.  Returns the copied operations, the iterator and what is
    left of the retain. *)
Fixpoint compose_leading (fuel : nat) (thisIter : OpIterator)
    (firstLeft : num) (copied : list Op) : list Op * OpIterator * num :=
  match fuel with
  | 0 => (copied, thisIter, firstLeft)
  | S fuel =>
      match peekType thisIter, peekLength thisIter with
      | TInsert, Fin len =>
          if num_leb (Fin len) firstLeft then
            let '(op, thisIter') := next Infinity thisIter in
            compose_leading fuel thisIter' (num_sub firstLeft len) (copied ++ [op])
          else (copied, thisIter, firstLeft)
      | _, _ => (copied, thisIter, firstLeft)
      end
  end.

(** One turn of the main [while (thisIter.hasNext() || otherIter.hasNext())]
    loop of [compose]; [inl] is the early [return] of the loop, [inr] the
    state for the next turn. *)
Definition compose_turn (thisIter otherIter : OpIterator) (delta : Delta)
    : Delta + (OpIterator * OpIterator * Delta) :=
  match peekType otherIter, peekType thisIter with
  | TInsert, _ =>
      let '(op, otherIter') := next Infinity otherIter in
      inr (thisIter, otherIter', push delta op)
  | _, TDelete =>
      let '(op, thisIter') := next Infinity thisIter in
      inr (thisIter', otherIter, push delta op)
  | _, _ =>
      let length := num_min (peekLength thisIter) (peekLength otherIter) in
      let '(thisOp, thisIter') := next length thisIter in
      let '(otherOp, otherIter') := next length otherIter in
      match otherOp, thisOp with
      | retain n, _ =>
          (* [if (otherOp.retain)]: a retain of 0 is falsy, and nothing
             is pushed for it *)
          if num_is_zero n then inr (thisIter', otherIter', delta)
          else
            let newOp :=
              match thisOp with
              | retain _ => retain length
              | _ => thisOp
              end in
            let delta' := push delta newOp in
            if negb (hasNext otherIter') &&
               match unsnoc delta' with
               | Some (_, lastOp) => op_eqb lastOp newOp
               | None => false
               end
            then inl (chop (concat delta' (rest thisIter')))
            else inr (thisIter', otherIter', delta')
      | delete _, retain _ => inr (thisIter', otherIter', push delta otherOp)
      | _, _ => inr (thisIter', otherIter', delta)
      end
  end.

Fixpoint compose_loop (fuel : nat) (thisIter otherIter : OpIterator)
    (delta : Delta) : Delta :=
  match fuel with
  | 0 => chop delta
  | S fuel =>
      if hasNext thisIter || hasNext otherIter then
        match compose_turn thisIter otherIter delta with
        | inl result => result
        | inr (thisIter', otherIter', delta') =>
            compose_loop fuel thisIter' otherIter' delta'
        end
      else chop delta
  end.

(** Operations not yet passed by an iterator; every turn of the loops
    passes at least one, which bounds the number of turns. *)
Definition pending (it : OpIterator) : nat := length (ops it) - index it.

(** [this.compose(other)] *)
Definition compose (this other : Delta) : Delta :=
  let thisIter := iterator this in
  let otherIter := iterator other in
  let '(copied, thisIter, otherIter) :=
    match peek otherIter with
    | Some (retain first) =>
        let '(copied, thisIter', firstLeft) :=
          compose_leading (length this) thisIter first [] in
        (* firstOther.retain - firstLeft; Infinity - Infinity is NaN, and
           NaN > 0 is false *)
        let covered := match first, firstLeft with
                       | Fin r, Fin l => r - l
                       | _, _ => 0
                       end in
        if (0 <? covered)%nat
        then (copied, thisIter', snd (next (Fin covered) otherIter))
        else (copied, thisIter', otherIter)
    | _ => ([], thisIter, otherIter)
    end in
  compose_loop (pending thisIter + pending otherIter) thisIter otherIter copied.

(** Length of the text a document holds, and the length of the document
    an edit expects (the sum of its retain and delete spans). *)
Definition doc_length (d : Delta) : nat :=
  fold_right (fun op n => match op with
                          | insert text => String.length text + n
                          | _ => n
                          end) 0 d.

Definition base_length (d : Delta) : nat :=
  fold_right (fun op n => match op with
                          | retain (Fin k) | delete (Fin k) => k + n
                          | _ => n
                          end) 0 d.

End QuillDelta.


(** ** JavaScript [Map<string, V>]

    A [Map] iterates in insertion order, and [server.ts] sends
    [Array.from(users.values())] to the clients, so the map is kept as the
    list of its entries in insertion order. *)
Module JsMap.
Section JsMap.
Context {V : Type}.

Definition t := list (string * V).

(** [m.get(k)] *)
Fixpoint get (k : string) (m : t) : option V :=
  match m with
  | [] => None
  | (k', v) :: m' => if String.eqb k' k then Some v else get k m'
  end.

(** [m.set(k, v)]: an existing key keeps its place, a new key goes last. *)
Fixpoint set (k : string) (v : V) (m : t) : t :=
  match m with
  | [] => [(k, v)]
  | (k', v') :: m' =>
      if String.eqb k' k then (k', v) :: m' else (k', v') :: set k v m'
  end.

(** [m.delete(k)] *)
Fixpoint delete (k : string) (m : t) : t :=
  match m with
  | [] => []
  | (k', v') :: m' =>
      if String.eqb k' k then delete k m' else (k', v') :: delete k m'
  end.

(** [Array.from(m.values())] and [Array.from(m.keys())] *)
Definition values (m : t) : list V := m.*2.
Definition keys (m : t) : list string := m.*1.
End JsMap.
Arguments t : clear implicits.
End JsMap.

(** ** Messages and server state *)

Import QuillDelta.

(** Events the server sends to clients (section "server to client" of the
    protocol), with their payloads. *)
Inductive message :=
| LoadDocument (doc : Delta)
| UserList (names : list string)
| ReceiveChanges (delta : Delta) (user : string)
| TypingMsg (username : string)
| StopTypingMsg (username : string).

(** The four ways a handler talks to clients: [socket.emit] (to the
    socket of the handler only), [io.emit] (to every connected socket),
    [socket.broadcast.emit] (to every connected socket but the handler's)
    and the acknowledgement [callback({success, message})]. *)
Inductive emission :=
| SocketEmit (sid : string) (m : message)
| IoEmit (m : message)
| BroadcastEmit (sid : string) (m : message)
| Callback (sid : string) (success : bool) (msg : option string).

(** A pending [setTimeout] of [handleTyping].  Every timer of the server
    runs the same callback, closed over [username]. *)
Record timer := mkTimer {
  timer_id : nat;
  timer_user : string;
  timer_due : nat
}.

(** The module-level variables of [server.ts], followed by the part of the
    Node event loop the handlers use: the pending timers, the next timer
    handle and the current time in milliseconds. *)
Record state := mkState {
  document : Delta;
  users : JsMap.t string;
  typingUsers : gset string;
  typingTimeouts : gmap string nat;
  timers : list timer;
  next_timer : nat;
  clock : nat
}.

Definition initial : state :=
  mkState [] [] ∅ ∅ [] 0 0.

Definition set_document (d : Delta) (st : state) : state :=
  mkState d (users st) (typingUsers st) (typingTimeouts st)
    (timers st) (next_timer st) (clock st).

Definition set_users (u : JsMap.t string) (st : state) : state :=
  mkState (document st) u (typingUsers st) (typingTimeouts st)
    (timers st) (next_timer st) (clock st).

Definition set_typingUsers (t : gset string) (st : state) : state :=
  mkState (document st) (users st) t (typingTimeouts st)
    (timers st) (next_timer st) (clock st).

Definition set_typingTimeouts (t : gmap string nat) (st : state) : state :=
  mkState (document st) (users st) (typingUsers st) t
    (timers st) (next_timer st) (clock st).

(** [setTimeout(callback, delay)]: schedules the callback and returns its
    handle. *)
Definition setTimeout (username : string) (delay : nat) (st : state)
    : nat * state :=
  (next_timer st,
   mkState (document st) (users st) (typingUsers st) (typingTimeouts st)
     (timers st ++ [mkTimer (next_timer st) username (clock st + delay)])
     (S (next_timer st)) (clock st)).

(** [clearTimeout(id)]: a handle that already fired is ignored. *)
Definition clearTimeout (id : nat) (st : state) : state :=
  mkState (document st) (users st) (typingUsers st) (typingTimeouts st)
    (filter (fun t => timer_id t ≠ id) (timers st))
    (next_timer st) (clock st).

(** JavaScript truthiness of a string: only the empty string is falsy. *)
Definition truthy (s : string) : bool :=
  match s with
  | EmptyString => false
  | String _ _ => true
  end.

(** The callback of the typing timeout (server.ts, lines 54-57). *)
Definition typing_timeout_callback (username : string) (st : state)
    : state * list emission :=
  (set_typingUsers (typingUsers st ∖ {[username]}) st,
   [IoEmit (StopTypingMsg username)]).

(** [handleTyping] (server.ts, lines 41-60). *)
Definition handleTyping (username : string) (st : state)
    : state * list emission :=
  let '(st, out) :=
    if bool_decide (username ∈ typingUsers st) then (st, [])
    else (set_typingUsers ({[username]} ∪ typingUsers st) st,
          [IoEmit (TypingMsg username)]) in
  let st :=
    match typingTimeouts st !! username with
    | Some id => clearTimeout id st
    | None => st
    end in
  let '(timeout, st) := setTimeout username 1000 st in
  (set_typingTimeouts (<[username := timeout]> (typingTimeouts st)) st, out).

(** Events the server processes: the six socket events of a connection
    [sid], and the passing of time, which runs the timers that are due. *)
Inductive event :=
| Join (sid username : string) (callback : bool)
| GetDocument (sid : string)
| SendChanges (sid : string) (delta : Delta)
| Typing (sid username : string)
| StopTyping (sid username : string)
| Disconnect (sid : string)
| Elapse (ms : nat).

(** ["join"] handler (server.ts, lines 67-90).  [callback] tells whether
    the client passed an acknowledgement function. *)
Definition on_join (sid username : string) (callback : bool) (st : state)
    : state * list emission :=
  let isUsernameTaken := bool_decide (username ∈ JsMap.values (users st)) in
  if isUsernameTaken then
    (st, if callback
         then [Callback sid false (Some "Username is already taken")]
         else [])
  else
    let st := set_users (JsMap.set sid username (users st)) st in
    (st,
     [SocketEmit sid (LoadDocument (document st));
      IoEmit (UserList (JsMap.values (users st)))]
     ++ (if callback then [Callback sid true None] else [])).

(** ["get-document"] handler (lines 93-95). *)
Definition on_get_document (sid : string) (st : state)
    : state * list emission :=
  (st, [SocketEmit sid (LoadDocument (document st))]).

(** [users.get(socket.id) || "Unknown"] *)
Definition author (sid : string) (st : state) : string :=
  match JsMap.get sid (users st) with
  | Some user => if truthy user then user else "Unknown"
  | None => "Unknown"
  end.

(** ["stop-typing"] handler (lines 114-117). *)
Definition on_stop_typing (username : string) (st : state)
    : state * list emission :=
  (set_typingUsers (typingUsers st ∖ {[username]}) st,
   [IoEmit (StopTypingMsg username)]).

(** ["disconnect"] handler (lines 120-128). *)
Definition on_disconnect (sid : string) (st : state)
    : state * list emission :=
  let '(st, out) :=
    match JsMap.get sid (users st) with
    | Some username =>
        if truthy username then
          (set_typingUsers (typingUsers st ∖ {[username]}) st,
           [IoEmit (UserList (JsMap.values (users st)))])
        else (st, [])
    | None => (st, [])
    end in
  (set_users (JsMap.delete sid (users st)) st, out).

(** Runs the callbacks of the given timers, in order. *)
Fixpoint fire (due : list timer) (st : state) : state * list emission :=
  match due with
  | [] => (st, [])
  | t :: due =>
      let '(st, out) := typing_timeout_callback (timer_user t) st in
      let '(st, out') := fire due st in
      (st, out ++ out')
  end.

(** [ms] milliseconds pass: the timers whose delay has run out leave the
    pending list and their callbacks run.  All timers have the same delay,
    so the pending list, kept in creation order, is also in firing
    order. *)
Definition on_elapse (ms : nat) (st : state) : state * list emission :=
  let now := clock st + ms in
  let due := filter (fun t => timer_due t ≤ now) (timers st) in
  let pending := filter (fun t => ¬ timer_due t ≤ now) (timers st) in
  fire due
    (mkState (document st) (users st) (typingUsers st) (typingTimeouts st)
       pending (next_timer st) now).

Section Server.

(** [QuillDelta.prototype.compose] of the quill-delta package; the
    handlers are defined for any implementation of it. *)
Variable compose : Delta → Delta → Delta.

(** ["send-changes"] handler (lines 98-106); [new QuillDelta(delta)]
    wraps the operations it is given. *)
Definition on_send_changes (sid : string) (delta : Delta) (st : state)
    : state * list emission :=
  let user := author sid st in
  (set_document (compose (document st) delta) st,
   [BroadcastEmit sid (ReceiveChanges delta user)]).

Definition step (st : state) (ev : event) : state * list emission :=
  match ev with
  | Join sid username callback => on_join sid username callback st
  | GetDocument sid => on_get_document sid st
  | SendChanges sid delta => on_send_changes sid delta st
  | Typing _ username => handleTyping username st
  | StopTyping _ username => on_stop_typing username st
  | Disconnect sid => on_disconnect sid st
  | Elapse ms => on_elapse ms st
  end.

(** Processes a trace of events, one after the other, collecting the
    emissions in order. *)
Fixpoint run (evs : list event) (st : state) : state * list emission :=
  match evs with
  | [] => (st, [])
  | ev :: evs =>
      let '(st, out) := step st ev in
      let '(st, out') := run evs st in
      (st, out ++ out')
  end.

(** States the server can be in: those some trace leads to from the
    state at process start. *)
Definition reachable (st : state) : Prop :=
  ∃ evs, (run evs initial).1 = st.

(** Along the trace from [st], no connection disconnects while it is
    registered under [name]. *)
Fixpoint keeps (name : string) (evs : list event) (st : state) : Prop :=
  match evs with
  | [] => True
  | ev :: evs =>
      match ev with
      | Disconnect sid => JsMap.get sid (users st) ≠ Some name
      | _ => True
      end ∧ keeps name evs (step st ev).1
  end.

End Server.


(** ** Vocabulary of the properties *)

Global Instance num_eq_dec : EqDecision num.
Proof. solve_decision. Defined.
Global Instance Op_eq_dec : EqDecision Op.
Proof. solve_decision. Defined.
Global Instance message_eq_dec : EqDecision message.
Proof. solve_decision. Defined.
Global Instance emission_eq_dec : EqDecision emission.
Proof. solve_decision. Defined.

(** The edits of a trace, in the order the server receives them. *)
Definition edits (evs : list event) : list Delta :=
  omap (fun ev => match ev with
                  | SendChanges _ delta => Some delta
                  | _ => None
                  end) evs.

(** The time a trace takes. *)
Definition elapsed (evs : list event) : nat :=
  sum_list_with (fun ev => match ev with Elapse ms => ms | _ => 0 end) evs.

(** An event that is no typing or stop-typing signal for [name]. *)
Definition quiet (name : string) (ev : event) : Prop :=
  match ev with
  | Typing _ username | StopTyping _ username => username ≠ name
  | _ => True
  end.

(** Number of stop-typing broadcasts for [name] among the emissions. *)
Definition stops (name : string) (out : list emission) : nat :=
  length (filter (fun e => e = IoEmit (StopTypingMsg name)) out).

(** Number of typing broadcasts for [name] among the emissions. *)
Definition starts (name : string) (out : list emission) : nat :=
  length (filter (fun e => e = IoEmit (TypingMsg name)) out).

(** The pending timers whose callback is for [name]. *)
Definition timers_of (name : string) (st : state) : list timer :=
  filter (fun t => timer_user t = name) (timers st).

(** Whether an emission is delivered to the socket [sid], for a socket
    that is connected when the emission is made (Socket.IO sends nothing
    to a socket that has disconnected). *)
Definition delivered_to (sid : string) (e : emission) : bool :=
  match e with
  | SocketEmit sid' _ => bool_decide (sid' = sid)
  | IoEmit _ => true
  | BroadcastEmit sid' _ => bool_decide (sid' ≠ sid)
  | Callback sid' _ _ => bool_decide (sid' = sid)
  end.

(** A user-list message that lists [name]. *)
Definition lists_name (name : string) (e : emission) : bool :=
  match e with
  | SocketEmit _ (UserList names) | IoEmit (UserList names)
  | BroadcastEmit _ (UserList names) => bool_decide (name ∈ names)
  | _ => false
  end.

(** The order the specification asks of an accepted join: no user-list
    that names the joiner reaches the joiner before the success
    acknowledgement does. *)
Definition ack_not_after_presence (sid username : string)
    (out : list emission) : Prop :=
  ∀ pre post, out = pre ++ Callback sid true None :: post →
    Forall (fun e => delivered_to sid e && lists_name username e = false) pre.

(** The typing set, the typing timeouts and the pending timers agree: a
    pending timer is the one recorded for its user and expires within the
    second, handles are fresh and not shared between users or timers, and
    a name in the typing set has a pending timer.  A pending timer is
    not due yet: [on_elapse] runs a timer as soon as it is. *)
Record timers_ok (st : state) : Prop := {
  timer_recorded t :
    t ∈ timers st → typingTimeouts st !! timer_user t = Some (timer_id t);
  timer_soon t :
    t ∈ timers st → clock st < timer_due t ≤ clock st + 1000;
  timer_handles : NoDup (timer_id <$> timers st);
  handle_fresh u id :
    typingTimeouts st !! u = Some id → id < next_timer st;
  handle_inj u u' id :
    typingTimeouts st !! u = Some id → typingTimeouts st !! u' = Some id →
    u = u';
  typing_armed u :
    u ∈ typingUsers st → ∃ t, t ∈ timers st ∧ timer_user t = u
}.

(** The registry holds at most one name per connection and at most one
    connection per name. *)
Definition registry_ok (st : state) : Prop :=
  NoDup (JsMap.keys (users st)) ∧ NoDup (JsMap.values (users st)).

(** ** Example states, for the instances of the theorems *)

(** alice and bob have joined, and alice has written "hi". *)
Definition two_users : state :=
  (run QuillDelta.compose [Join "s1" "alice" true; Join "s2" "bob" true;
                SendChanges "s1" [insert "hi"]] initial).1.

(** The same, and alice has just sent a typing signal. *)
Definition alice_typing : state :=
  (run QuillDelta.compose [Typing "s1" "alice"] two_users).1.

(** ** The editor component (client side)

    The React component [CollaborativeEditor] keeps, among its state, the
    list of active users and the list of users shown as typing.  It
    updates them in the handlers of "user-list", "typing" and
    "stop-typing", which it registers when it creates its socket. *)
Module Editor.

Record state := mkState {
  userList : list string;
  typingUsers : list string
}.

(** [useState<string[]>([])], for both lists *)
Definition initial : state := mkState [] [].

(** The three handlers: [setUserList(users)],
    [setTypingUsers((prev) => [...prev, user])] and
    [setTypingUsers((prev) => prev.filter((u) => u !== user))].  The
    other messages do not touch the two lists. *)
Definition receive (m : message) (c : state) : state :=
  match m with
  | UserList users => mkState users (typingUsers c)
  | TypingMsg user => mkState (userList c) (typingUsers c ++ [user])
  | StopTypingMsg user =>
      mkState (userList c) (filter (fun u => u ≠ user) (typingUsers c))
  | LoadDocument _ | ReceiveChanges _ _ => c
  end.

(** The component behind the connected socket [sid] handles, in order,
    the messages of the emissions that reach its socket. *)
Definition deliver (sid : string) (out : list emission) (c : state)
    : state :=
  fold_left
    (fun c e =>
       if delivered_to sid e then
         match e with
         | SocketEmit _ m | IoEmit m | BroadcastEmit _ m => receive m c
         | Callback _ _ _ => c
         end
       else c)
    out c.

End Editor.

(** An event that is no typing signal, whatever the name. *)
Definition no_typing (ev : event) : Prop :=
  match ev with
  | Typing _ _ => False
  | _ => True
  end.

(** An event that is not the disconnect of the socket [cid]: along a trace
    of such events a client connected as [cid] stays connected, and
    [delivered_to cid] tells what reaches it. *)
Definition stays_connected (cid : string) (ev : event) : Prop :=
  match ev with
  | Disconnect sid => sid ≠ cid
  | _ => True
  end.

(** An event that is no disconnect. *)
Definition no_disconnect (ev : event) : Prop :=
  match ev with
  | Disconnect _ => False
  | _ => True
  end.

(** An event that is neither a join, an edit nor a disconnect. *)
Definition passive (ev : event) : Prop :=
  match ev with
  | Join _ _ _ | SendChanges _ _ | Disconnect _ => False
  | _ => True
  end.

(** * Properties *)

(** ** The loops of [compose] end before their fuel does *)

Section Compose_fuel.
Import QuillDelta.

Lemma peek_pending it op : ops it !! index it = Some op → 0 < pending it.
Proof. intros Hop%lookup_lt_Some. unfold pending. lia. Qed.

Lemma hasNext_pending it : hasNext it = true → 0 < pending it.
Proof.
unfold hasNext, peekLength.
destruct (ops it !! index it) as [op|] eqn:Hop; [|done].
intros _. by eapply peek_pending.
Qed.

(** [next] never steps back. *)
Lemma next_pending_le len it : pending (next len it).2 ≤ pending it.
Proof.
unfold next, pending.
destruct (ops it !! index it) as [op|]; [|done].
by destruct (num_leb _ _); destruct op; simpl; lia.
Qed.

(** [next] passes the current operation when asked for all that is left
  of it, or for more. *)
Lemma next_pending_lt len it n :
peekLength it = Fin n →
num_leb (Fin n) (if num_is_zero len then Infinity else len) = true →
pending (next len it).2 < pending it.
Proof.
unfold peekLength, next.
destruct (ops it !! index it) as [op|] eqn:Hop; [|done].
intros -> ->. apply peek_pending in Hop. unfold pending in *.
destruct op; simpl; lia.
Qed.

Lemma next_all_pending_lt it :
is_Some (ops it !! index it) → pending (next Infinity it).2 < pending it.
Proof.
intros [op Hop]. unfold next. rewrite Hop.
apply peek_pending in Hop. unfold pending in *.
replace (num_leb _ _) with true by by destruct (num_sub _ _).
destruct op; simpl; lia.
Qed.

Lemma peekType_op it :
peekType it ≠ TRetain → is_Some (ops it !! index it).
Proof. unfold peekType. by destruct (ops it !! index it) as [[]|]. Qed.

Lemma num_leb_min a b :
num_leb (Fin a) (if num_is_zero (Fin (a `min` b)) then Infinity
                 else Fin (a `min` b)) = true ∨
num_leb (Fin b) (if num_is_zero (Fin (a `min` b)) then Infinity
                 else Fin (a `min` b)) = true.
Proof.
destruct (a `min` b) as [|m] eqn:Hmin; simpl; [by left|].
destruct (decide (a ≤ b)).
- left. apply Nat.leb_le. lia.
- right. apply Nat.leb_le. lia.
Qed.

(** When both iterators advance by the shorter of the two lengths, the
  one with the shorter operation passes it. *)
Lemma both_next_pending thisIter otherIter :
hasNext thisIter || hasNext otherIter = true →
let len := num_min (peekLength thisIter) (peekLength otherIter) in
pending (next len thisIter).2 + pending (next len otherIter).2
  < pending thisIter + pending otherIter.
Proof.
unfold hasNext.
destruct (peekLength thisIter) as [a|] eqn:Ha;
  destruct (peekLength otherIter) as [b|] eqn:Hb; simpl; [| | |done];
  intros _.
- pose proof (next_pending_le (Fin (a `min` b)) thisIter).
  pose proof (next_pending_le (Fin (a `min` b)) otherIter).
  destruct (num_leb_min a b) as [Hle|Hle].
  + pose proof (next_pending_lt _ _ _ Ha Hle). lia.
  + pose proof (next_pending_lt _ _ _ Hb Hle). lia.
- pose proof (next_pending_le (Fin a) otherIter).
  assert (pending (next (Fin a) thisIter).2 < pending thisIter); [|lia].
  apply (next_pending_lt _ _ _ Ha).
  destruct a; simpl; [done | apply Nat.leb_le; lia].
- pose proof (next_pending_le (Fin b) thisIter).
  assert (pending (next (Fin b) otherIter).2 < pending otherIter); [|lia].
  apply (next_pending_lt _ _ _ Hb).
  destruct b; simpl; [done | apply Nat.leb_le; lia].
Qed.

(** Every turn of the main loop passes an operation of one of the two
  deltas. *)
Lemma compose_turn_pending thisIter otherIter delta thisIter' otherIter' delta' :
hasNext thisIter || hasNext otherIter = true →
compose_turn thisIter otherIter delta = inr (thisIter', otherIter', delta') →
pending thisIter' + pending otherIter' < pending thisIter + pending otherIter.
Proof.
intros Hnext. unfold compose_turn.
pose proof (both_next_pending _ _ Hnext) as Hboth. simpl in Hboth.
destruct (peekType otherIter) eqn:Hother.
- pose proof (next_all_pending_lt otherIter) as Hlt.
  destruct (next Infinity otherIter) as [op it]. intros [= <- <- <-].
  simpl in *. assert (pending it < pending otherIter); [|lia].
  apply Hlt, peekType_op. by rewrite Hother.
- destruct (peekType thisIter) eqn:Hthis.
  + destruct (next _ thisIter), (next _ otherIter). simpl in *.
    repeat case_match; by intros [= <- <- <-].
  + destruct (next _ thisIter), (next _ otherIter). simpl in *.
    repeat case_match; by intros [= <- <- <-].
  + pose proof (next_all_pending_lt thisIter) as Hlt.
    destruct (next Infinity thisIter) as [op it]. intros [= <- <- <-].
    simpl in *. assert (pending it < pending thisIter); [|lia].
    apply Hlt, peekType_op. by rewrite Hthis.
- destruct (peekType thisIter) eqn:Hthis.
  + destruct (next _ thisIter), (next _ otherIter). simpl in *.
    repeat case_match; by intros [= <- <- <-].
  + destruct (next _ thisIter), (next _ otherIter). simpl in *.
    repeat case_match; by intros [= <- <- <-].
  + pose proof (next_all_pending_lt thisIter) as Hlt.
    destruct (next Infinity thisIter) as [op it]. intros [= <- <- <-].
    simpl in *. assert (pending it < pending thisIter); [|lia].
    apply Hlt, peekType_op. by rewrite Hthis.
Qed.

(** With fuel for every pending operation the main loop leaves through
  its own condition or [return]: more fuel changes nothing. *)
Lemma compose_loop_fuel fuel thisIter otherIter delta :
pending thisIter + pending otherIter ≤ fuel →
compose_loop (S fuel) thisIter otherIter delta =
compose_loop fuel thisIter otherIter delta.
Proof.
revert thisIter otherIter delta.
induction fuel as [|fuel IH]; intros thisIter otherIter delta Hfuel.
- simpl. destruct (hasNext thisIter) eqn:Hthis.
  { apply hasNext_pending in Hthis. lia. }
  destruct (hasNext otherIter) eqn:Hother; [|done].
  apply hasNext_pending in Hother. lia.
- change (compose_loop (S (S fuel)) thisIter otherIter delta) with
    (if hasNext thisIter || hasNext otherIter then
       match compose_turn thisIter otherIter delta with
       | inl result => result
       | inr (thisIter', otherIter', delta') =>
           compose_loop (S fuel) thisIter' otherIter' delta'
       end
     else chop delta).
  change (compose_loop (S fuel) thisIter otherIter delta) with
    (if hasNext thisIter || hasNext otherIter then
       match compose_turn thisIter otherIter delta with
       | inl result => result
       | inr (thisIter', otherIter', delta') =>
           compose_loop fuel thisIter' otherIter' delta'
       end
     else chop delta).
  destruct (hasNext thisIter || hasNext otherIter) eqn:Hnext; [|done].
  destruct (compose_turn thisIter otherIter delta)
    as [result|[[thisIter' otherIter'] delta']] eqn:Hturn; [done|].
  apply IH. apply compose_turn_pending in Hturn; [lia | done].
Qed.

Lemma compose_loop_more_fuel extra fuel thisIter otherIter delta :
pending thisIter + pending otherIter ≤ fuel →
compose_loop (extra + fuel) thisIter otherIter delta =
compose_loop fuel thisIter otherIter delta.
Proof.
intros Hfuel. induction extra as [|extra IH]; [done|].
rewrite <-IH. apply compose_loop_fuel. lia.
Qed.

(** The leading loop copies whole operations, one per turn. *)
Lemma compose_leading_fuel fuel thisIter firstLeft copied :
pending thisIter ≤ fuel →
compose_leading (S fuel) thisIter firstLeft copied =
compose_leading fuel thisIter firstLeft copied.
Proof.
revert thisIter firstLeft copied.
induction fuel as [|fuel IH]; intros thisIter firstLeft copied Hfuel.
- simpl. destruct (peekType thisIter) eqn:Htype; try done. exfalso.
  assert (is_Some (ops thisIter !! index thisIter)) as [op Hop]
    by (apply peekType_op; by rewrite Htype).
  apply peek_pending in Hop. lia.
- change (compose_leading (S (S fuel)) thisIter firstLeft copied) with
    (match peekType thisIter, peekLength thisIter with
     | TInsert, Fin len =>
         if num_leb (Fin len) firstLeft then
           let '(op, thisIter') := next Infinity thisIter in
           compose_leading (S fuel) thisIter' (num_sub firstLeft len)
             (copied ++ [op])
         else (copied, thisIter, firstLeft)
     | _, _ => (copied, thisIter, firstLeft)
     end).
  change (compose_leading (S fuel) thisIter firstLeft copied) with
    (match peekType thisIter, peekLength thisIter with
     | TInsert, Fin len =>
         if num_leb (Fin len) firstLeft then
           let '(op, thisIter') := next Infinity thisIter in
           compose_leading fuel thisIter' (num_sub firstLeft len)
             (copied ++ [op])
         else (copied, thisIter, firstLeft)
     | _, _ => (copied, thisIter, firstLeft)
     end).
  destruct (peekType thisIter) eqn:Htype; try done.
  destruct (peekLength thisIter) as [len|]; [|done].
  destruct (num_leb (Fin len) firstLeft); [|done].
  pose proof (next_all_pending_lt thisIter) as Hlt.
  destruct (next Infinity thisIter) as [op thisIter']. simpl in Hlt.
  apply IH.
  assert (pending thisIter' < pending thisIter); [|lia].
  apply Hlt, peekType_op. by rewrite Htype.
Qed.

End Compose_fuel.

(** ** The [users] map *)
#[local] Set Warnings "-clear-no-such-hyp".

Section JsMapFacts.
Context {V : Type}.
Implicit Types (m : JsMap.t V) (k : string) (v : V).

Lemma get_Some_elem m k v : JsMap.get k m = Some v → (k, v) ∈ m.
Proof.
  induction m as [|[k' v'] m IH]; csimpl; [done|].
  destruct (String.eqb_spec k' k) as [->|Hne].
  - intros [= ->]. left.
  - intros H. right. auto.
Qed.

Lemma get_Some_values m k v : JsMap.get k m = Some v → v ∈ JsMap.values m.
Proof.
  intros H%get_Some_elem. unfold JsMap.values.
  apply list_elem_of_fmap. by exists (k, v).
Qed.

Lemma get_None_keys m k : JsMap.get k m = None ↔ k ∉ JsMap.keys m.
Proof.
  unfold JsMap.keys.
  induction m as [|[k' v'] m IH]; csimpl.
  - split; [intros _; apply not_elem_of_nil | done].
  - destruct (String.eqb_spec k' k) as [->|Hne].
    + split; [done | intros []; left].
    + rewrite IH, not_elem_of_cons. naive_solver.
Qed.

Lemma elem_get_Some m k v :
  NoDup (JsMap.keys m) → (k, v) ∈ m → JsMap.get k m = Some v.
Proof.
  unfold JsMap.keys.
  induction m as [|[k' v'] m IH]; csimpl; [by intros _ ?%elem_of_nil|].
  intros [Hk Hnd]%NoDup_cons [Heq|Hin]%elem_of_cons.
  - injection Heq as -> ->. by rewrite String.eqb_refl.
  - destruct (String.eqb_spec k' k) as [->|Hne]; [|auto].
    destruct Hk. apply list_elem_of_fmap. by exists (k, v).
Qed.

Lemma get_set_eq m k v : JsMap.get k (JsMap.set k v m) = Some v.
Proof.
  induction m as [|[k' v'] m IH]; csimpl.
  - by rewrite String.eqb_refl.
  - destruct (String.eqb_spec k' k) as [->|Hne]; csimpl.
    + by rewrite String.eqb_refl.
    + by destruct (String.eqb_spec k' k).
Qed.

Lemma get_set_ne m k k' v :
  k ≠ k' → JsMap.get k' (JsMap.set k v m) = JsMap.get k' m.
Proof.
  intros Hne. induction m as [|[k0 v0] m IH]; csimpl.
  - by destruct (String.eqb_spec k k').
  - destruct (String.eqb_spec k0 k) as [->|Hne0]; csimpl.
    + by destruct (String.eqb_spec k k').
    + by rewrite IH.
Qed.

Lemma get_delete_eq m k : JsMap.get k (JsMap.delete k m) = None.
Proof.
  induction m as [|[k' v'] m IH]; csimpl; [done|].
  destruct (String.eqb_spec k' k) as [->|Hne]; csimpl; [done|].
  by destruct (String.eqb_spec k' k).
Qed.

Lemma get_delete_ne m k k' :
  k ≠ k' → JsMap.get k' (JsMap.delete k m) = JsMap.get k' m.
Proof.
  intros Hne. induction m as [|[k0 v0] m IH]; csimpl; [done|].
  destruct (String.eqb_spec k0 k) as [->|Hne0]; csimpl.
  - by destruct (String.eqb_spec k k').
  - by rewrite IH.
Qed.

(** Entries of the map after [set]: the new binding, and the old
    bindings of the other keys. *)
Lemma elem_of_set m k v k' v' :
  NoDup (JsMap.keys m) →
  (k', v') ∈ JsMap.set k v m ↔
  (k' = k ∧ v' = v) ∨ (k' ≠ k ∧ (k', v') ∈ m).
Proof.
  unfold JsMap.keys.
  induction m as [|[k0 v0] m IH]; csimpl; intros Hnd.
  - rewrite list_elem_of_singleton, elem_of_nil. naive_solver.
  - apply NoDup_cons in Hnd as [Hk Hnd].
    destruct (String.eqb_spec k0 k) as [->|Hne].
    + rewrite !elem_of_cons. split.
      * intros [[= -> ->]|Hin]; [by left|].
        right. split; [|by right].
        intros ->. apply Hk, list_elem_of_fmap. by exists (k, v').
      * intros [[-> ->]|[Hne Hin]]; [by left|].
        destruct Hin as [[= ? ?]|Hin]; [done | by right].
    + rewrite !elem_of_cons, IH by done. naive_solver.
Qed.

Lemma elem_of_delete m k k' v' :
  (k', v') ∈ JsMap.delete k m ↔ k' ≠ k ∧ (k', v') ∈ m.
Proof.
  induction m as [|[k0 v0] m IH]; csimpl.
  - rewrite elem_of_nil. naive_solver.
  - destruct (String.eqb_spec k0 k) as [->|Hne].
    + rewrite IH, elem_of_cons. naive_solver.
    + rewrite !elem_of_cons, IH. naive_solver.
Qed.

Lemma keys_set m k v :
  JsMap.keys (JsMap.set k v m) =
  if bool_decide (k ∈ JsMap.keys m) then JsMap.keys m
  else JsMap.keys m ++ [k].
Proof.
  unfold JsMap.keys.
  induction m as [|[k0 v0] m IH]; csimpl; [done|].
  destruct (String.eqb_spec k0 k) as [->|Hne]; csimpl.
  - rewrite bool_decide_eq_true_2; [done | left].
  - rewrite IH. case_bool_decide as Hin.
    + rewrite bool_decide_eq_true_2; [done | by right].
    + rewrite bool_decide_eq_false_2; [done|].
      rewrite not_elem_of_cons. naive_solver.
Qed.

Lemma NoDup_keys_set m k v :
  NoDup (JsMap.keys m) → NoDup (JsMap.keys (JsMap.set k v m)).
Proof.
  intros Hnd. rewrite keys_set. case_bool_decide as Hin; [done|].
  apply NoDup_app. split_and!; [done | | apply NoDup_singleton].
  intros x Hx ->%list_elem_of_singleton. done.
Qed.

Lemma delete_sublist m k : JsMap.delete k m `sublist_of` m.
Proof.
  induction m as [|[k0 v0] m IH]; csimpl; [done|].
  destruct (String.eqb k0 k); by constructor.
Qed.

Lemma NoDup_keys_delete m k :
  NoDup (JsMap.keys m) → NoDup (JsMap.keys (JsMap.delete k m)).
Proof.
  intros Hnd. eapply sublist_NoDup; [exact Hnd|].
  apply fmap_sublist, delete_sublist.
Qed.

Lemma NoDup_values_delete m k :
  NoDup (JsMap.values m) → NoDup (JsMap.values (JsMap.delete k m)).
Proof.
  intros Hnd. eapply sublist_NoDup; [exact Hnd|].
  apply fmap_sublist, delete_sublist.
Qed.

(** The value just set is among the values, whatever the map was. *)
Lemma set_in_values m k v : v ∈ JsMap.values (JsMap.set k v m).
Proof. apply (get_Some_values _ k), get_set_eq. Qed.

Lemma values_set_elem m k v x :
  x ∈ JsMap.values (JsMap.set k v m) → x = v ∨ x ∈ JsMap.values m.
Proof.
  unfold JsMap.values.
  induction m as [|[k0 v0] m IH]; csimpl.
  - intros ->%list_elem_of_singleton. by left.
  - destruct (String.eqb k0 k); csimpl; rewrite !elem_of_cons;
      naive_solver.
Qed.

Lemma NoDup_values_set m k v :
  v ∉ JsMap.values m → NoDup (JsMap.values m) →
  NoDup (JsMap.values (JsMap.set k v m)).
Proof.
  unfold JsMap.values.
  induction m as [|[k0 v0] m IH]; csimpl; intros Hv Hnd.
  - apply NoDup_singleton.
  - apply not_elem_of_cons in Hv as [Hne Hv].
    apply NoDup_cons in Hnd as [Hv0 Hnd].
    destruct (String.eqb k0 k); csimpl.
    + by apply NoDup_cons.
    + apply NoDup_cons. split; [|auto].
      intros [->|Hin]%values_set_elem; done.
Qed.
End JsMapFacts.

(** ** The handlers, one by one *)

Lemma handleTyping_unfold username st :
  handleTyping username st =
  (mkState (document st) (users st) ({[username]} ∪ typingUsers st)
     (<[username := next_timer st]> (typingTimeouts st))
     (match typingTimeouts st !! username with
      | Some id => filter (fun t => timer_id t ≠ id) (timers st)
      | None => timers st
      end ++ [mkTimer (next_timer st) username (clock st + 1000)])
     (S (next_timer st)) (clock st),
   if bool_decide (username ∈ typingUsers st) then []
   else [IoEmit (TypingMsg username)]).
Proof.
  unfold handleTyping. case_bool_decide as Hin.
  - replace ({[username]} ∪ typingUsers st) with (typingUsers st)
      by set_solver.
    by destruct (typingTimeouts st !! username).
  - simpl. by destruct (typingTimeouts st !! username).
Qed.

Lemma fire_unfold due st :
  fire due st =
  (set_typingUsers (typingUsers st ∖ list_to_set (timer_user <$> due)) st,
   (fun t => IoEmit (StopTypingMsg (timer_user t))) <$> due).
Proof.
  revert st. induction due as [|t due IH]; intros st; csimpl.
  - destruct st; unfold set_typingUsers; simpl. f_equal. f_equal. set_solver.
  - rewrite IH. destruct st; unfold set_typingUsers; simpl.
    f_equal. f_equal. set_solver.
Qed.

(** ** Invariants of the reachable states *)

Lemma timers_ok_same st st' :
  timers st' = timers st → typingTimeouts st' = typingTimeouts st →
  next_timer st' = next_timer st → clock st' = clock st →
  typingUsers st' ⊆ typingUsers st → timers_ok st → timers_ok st'.
Proof.
  intros Ht Hm Hn Hc Hu [H1 H2 H3 H4 H5 H6].
  split; rewrite ?Ht, ?Hm, ?Hn, ?Hc; eauto.
Qed.

(** The timers that survive the [clearTimeout] of [handleTyping]. *)
Lemma cleared_timers username st :
  timers_ok st → ∀ t,
  t ∈ match typingTimeouts st !! username with
      | Some id => filter (fun t => timer_id t ≠ id) (timers st)
      | None => timers st
      end ↔
  t ∈ timers st ∧ timer_user t ≠ username.
Proof.
  intros Hok t.
  destruct (typingTimeouts st !! username) as [id|] eqn:Hid.
  - rewrite list_elem_of_filter. split.
    + intros [Hne Ht]. split; [done|]. intros Hu.
      apply (timer_recorded _ Hok) in Ht. rewrite Hu, Hid in Ht. congruence.
    + intros [Ht Hu]. split; [|done]. intros Heq.
      apply Hu. eapply (handle_inj _ Hok); [|exact Hid].
      rewrite <-Heq. by apply (timer_recorded _ Hok).
  - split; [|naive_solver]. intros Ht. split; [done|]. intros Hu.
    apply (timer_recorded _ Hok) in Ht. rewrite Hu, Hid in Ht. congruence.
Qed.

Lemma timers_ok_handleTyping username st :
  timers_ok st → timers_ok (handleTyping username st).1.
Proof.
  intros Hok. pose proof (cleared_timers username st Hok) as Hcl.
  rewrite handleTyping_unfold. split; simpl.
  - intros t [[Ht Hu]%Hcl| ->%list_elem_of_singleton]%elem_of_app;
      simpl; [|by rewrite lookup_insert_eq].
    rewrite lookup_insert_ne by done. by apply (timer_recorded _ Hok).
  - intros t [[Ht Hu]%Hcl| ->%list_elem_of_singleton]%elem_of_app;
      simpl; [|lia].
    by apply (timer_soon _ Hok).
  - rewrite fmap_app. apply NoDup_app. split_and!.
    + destruct (typingTimeouts st !! username).
      * eapply sublist_NoDup; [apply (timer_handles _ Hok)|].
        apply fmap_sublist, sublist_filter.
      * apply (timer_handles _ Hok).
    + intros id (t & -> & [Ht _]%Hcl)%list_elem_of_fmap.
      simpl. intros Heq%list_elem_of_singleton.
      apply (timer_recorded _ Hok), (handle_fresh _ Hok) in Ht. lia.
    + apply NoDup_singleton.
  - intros u id. rewrite lookup_insert. case_decide.
    + intros [= <-]. lia.
    + intros ?%(handle_fresh _ Hok). lia.
  - intros u u' id. rewrite !lookup_insert.
    repeat case_decide; subst; try done.
    + intros [= <-] ?%(handle_fresh _ Hok). lia.
    + intros ?%(handle_fresh _ Hok) [= <-]. lia.
    + apply (handle_inj _ Hok).
  - intros u Hu. destruct (decide (u = username)) as [->|Hne].
    + eexists. split; [apply elem_of_app; right; apply list_elem_of_singleton|];
        done.
    + apply elem_of_union in Hu as [Hu|Hu]; [set_solver|].
      apply (typing_armed _ Hok) in Hu as (t & Ht & Hu).
      exists t. split; [|done]. apply elem_of_app. left.
      apply Hcl. split; [done | congruence].
Qed.

Lemma timers_ok_elapse ms st : timers_ok st → timers_ok (on_elapse ms st).1.
Proof.
  intros Hok. unfold on_elapse. rewrite fire_unfold.
  split; simpl.
  - intros t [_ Ht]%list_elem_of_filter. by apply (timer_recorded _ Hok).
  - intros t [Hdue Ht%(timer_soon _ Hok)]%list_elem_of_filter. lia.
  - eapply sublist_NoDup; [apply (timer_handles _ Hok)|].
    apply fmap_sublist, sublist_filter.
  - apply (handle_fresh _ Hok).
  - apply (handle_inj _ Hok).
  - intros u [Hu Hdue]%elem_of_difference.
    apply (typing_armed _ Hok) in Hu as (t & Ht & Hu).
    exists t. split; [|done]. apply list_elem_of_filter. split; [|done].
    intros Hle. apply Hdue, elem_of_list_to_set, list_elem_of_fmap.
    exists t. split; [done|]. by apply list_elem_of_filter.
Qed.

Lemma registry_ok_join sid username callback st :
  registry_ok st → registry_ok (on_join sid username callback st).1.
Proof.
  intros [Hk Hv]. unfold on_join. case_bool_decide as Hin; [done|].
  split; simpl.
  - by apply NoDup_keys_set.
  - by apply NoDup_values_set.
Qed.

Lemma registry_ok_disconnect sid st :
  registry_ok st → registry_ok (on_disconnect sid st).1.
Proof.
  intros [Hk Hv]. unfold on_disconnect.
  assert (registry_ok (set_users (JsMap.delete sid (users st)) st)) as Hok.
  { split; simpl; [by apply NoDup_keys_delete | by apply NoDup_values_delete]. }
  destruct (JsMap.get sid (users st)) as [username|]; [|done].
  by destruct (truthy username).
Qed.

Lemma registry_ok_same st st' :
  users st' = users st → registry_ok st → registry_ok st'.
Proof. unfold registry_ok. by intros ->. Qed.

Section Server_facts.
Variable compose : Delta → Delta → Delta.

Lemma timers_ok_step st ev :
  timers_ok st → timers_ok (step compose st ev).1.
Proof.
  intros Hok. destruct ev; simpl.
  - eapply timers_ok_same; [..|exact Hok];
      unfold on_join; by repeat case_match.
  - done.
  - eapply timers_ok_same; [..|exact Hok]; done.
  - by apply timers_ok_handleTyping.
  - eapply timers_ok_same; [..|exact Hok]; simpl; try done; set_solver.
  - eapply timers_ok_same; [..|exact Hok];
      unfold on_disconnect; repeat case_match; simplify_eq; simpl;
      try done; set_solver.
  - by apply timers_ok_elapse.
Qed.

Lemma registry_ok_step st ev :
  registry_ok st → registry_ok (step compose st ev).1.
Proof.
  intros Hok. destruct ev; simpl.
  - by apply registry_ok_join.
  - done.
  - eapply registry_ok_same; [|exact Hok]; done.
  - eapply registry_ok_same; [|exact Hok]. by rewrite handleTyping_unfold.
  - eapply registry_ok_same; [|exact Hok]; done.
  - by apply registry_ok_disconnect.
  - eapply registry_ok_same; [|exact Hok].
    unfold on_elapse. by rewrite fire_unfold.
Qed.

Lemma run_cons ev evs st :
  run compose (ev :: evs) st =
  ((run compose evs (step compose st ev).1).1,
   (step compose st ev).2 ++ (run compose evs (step compose st ev).1).2).
Proof.
  simpl. destruct (step compose st ev) as [st1 out1]. simpl.
  by destruct (run compose evs st1) as [st2 out2].
Qed.

Lemma run_app evs evs' st :
  run compose (evs ++ evs') st =
  ((run compose evs' (run compose evs st).1).1,
   (run compose evs st).2 ++ (run compose evs' (run compose evs st).1).2).
Proof.
  revert st. induction evs as [|ev evs IH]; intros st.
  - simpl. by destruct (run compose evs' st).
  - rewrite <-app_comm_cons, !run_cons, IH. simpl. by rewrite app_assoc.
Qed.

Lemma timers_ok_run evs st :
  timers_ok st → timers_ok (run compose evs st).1.
Proof.
  revert st. induction evs as [|ev evs IH]; intros st Hok; [done|].
  rewrite run_cons. simpl. by apply IH, timers_ok_step.
Qed.

Lemma registry_ok_run evs st :
  registry_ok st → registry_ok (run compose evs st).1.
Proof.
  revert st. induction evs as [|ev evs IH]; intros st Hok; [done|].
  rewrite run_cons. simpl. by apply IH, registry_ok_step.
Qed.

Lemma timers_ok_initial : timers_ok initial.
Proof.
  split; simpl; try done; try set_solver. apply NoDup_nil_2.
Qed.

Lemma registry_ok_initial : registry_ok initial.
Proof. split; simpl; apply NoDup_nil_2. Qed.

Lemma reachable_timers_ok st : reachable compose st → timers_ok st.
Proof. intros [evs <-]. apply timers_ok_run, timers_ok_initial. Qed.

Lemma reachable_registry_ok st : reachable compose st → registry_ok st.
Proof. intros [evs <-]. apply registry_ok_run, registry_ok_initial. Qed.

End Server_facts.

(** ** Pending timers *)

Lemma filter_absorb {A} (P Q : A → Prop)
    `{!∀ x, Decision (P x)} `{!∀ x, Decision (Q x)} (l : list A) :
  (∀ x, x ∈ l → P x → Q x) → filter P (filter Q l) = filter P l.
Proof.
  induction l as [|x l IH]; intros HPQ; [done|].
  rewrite (filter_cons Q). destruct (decide (Q x)) as [HQ|HQ].
  - rewrite !filter_cons, IH; [done|]. intros y Hy. apply HPQ. by right.
  - rewrite filter_cons_False, IH; [done| |].
    + intros y Hy. apply HPQ. by right.
    + intros HP. apply HQ, HPQ; [left | done].
Qed.

Lemma filter_none {A} (P : A → Prop) `{!∀ x, Decision (P x)} (l : list A) :
  (∀ x, x ∈ l → ¬ P x) → filter P l = [].
Proof.
  induction l as [|x l IH]; intros HP; [done|].
  rewrite filter_cons_False, IH; [done| |].
  - intros y Hy. apply HP. by right.
  - apply HP. left.
Qed.

Lemma filter_all {A} (P : A → Prop) `{!∀ x, Decision (P x)} (l : list A) :
  (∀ x, x ∈ l → P x) → filter P l = l.
Proof.
  induction l as [|x l IH]; intros HP; [done|].
  rewrite filter_cons_True, IH; [done| |].
  - intros y Hy. apply HP. by right.
  - apply HP. left.
Qed.

Lemma timers_of_handleTyping name st :
  timers_ok st →
  timers_of name (handleTyping name st).1 =
  [mkTimer (next_timer st) name (clock st + 1000)].
Proof.
  intros Hok. pose proof (cleared_timers name st Hok) as Hcl.
  rewrite handleTyping_unfold. unfold timers_of. simpl.
  rewrite filter_app, filter_none.
  - simpl. by rewrite filter_cons_True.
  - intros t [_ Hu]%Hcl. done.
Qed.

Lemma timers_of_handleTyping_ne name username st :
  username ≠ name → timers_ok st →
  timers_of name (handleTyping username st).1 = timers_of name st.
Proof.
  intros Hne Hok. pose proof (cleared_timers username st Hok) as Hcl.
  rewrite handleTyping_unfold. unfold timers_of. simpl.
  rewrite filter_app, (filter_none _ [_]), app_nil_r.
  - destruct (typingTimeouts st !! username) as [id|]; [|done].
    apply filter_absorb. intros t Ht Hu.
    assert (t ∈ filter (λ t, timer_id t ≠ id) (timers st)) as Hin.
    { apply Hcl. split; [done | congruence]. }
    by apply list_elem_of_filter in Hin as [? _].
  - intros t ->%list_elem_of_singleton. done.
Qed.

(** A user has at most one pending timer, and exactly one while in the
    typing set. *)
Lemma at_most_one_timer name st :
  timers_ok st → length (timers_of name st) ≤ 1.
Proof.
  intros Hok. unfold timers_of.
  pose proof (timer_handles _ Hok) as Hnd.
  pose proof (timer_recorded _ Hok) as Hrec.
  induction (timers st) as [|t l IH]; [simpl; lia|].
  apply NoDup_cons in Hnd as [Hid Hnd].
  rewrite filter_cons. case_decide as Hu; simpl.
  - rewrite filter_none; [simpl; lia|]. intros t' Ht' Hu'.
    apply Hid, list_elem_of_fmap. exists t'. split; [|done].
    assert (Some (timer_id t) = Some (timer_id t')) as [= ->]; [|done].
    rewrite <-!Hrec, Hu, Hu'; [done | by right | left].
  - apply IH; [done|]. intros t' Ht'. apply Hrec. by right.
Qed.

Lemma typing_one_timer name st :
  timers_ok st → name ∈ typingUsers st → length (timers_of name st) = 1.
Proof.
  intros Hok Hin. pose proof (at_most_one_timer name st Hok) as Hle.
  apply (typing_armed _ Hok) in Hin as (t & Ht & Hu).
  assert (t ∈ timers_of name st) as Hin.
  { by apply list_elem_of_filter. }
  destruct (timers_of name st); [by apply elem_of_nil in Hin|].
  simpl in *. lia.
Qed.

Lemma stops_app name out out' :
  stops name (out ++ out') = stops name out + stops name out'.
Proof. unfold stops. by rewrite filter_app, length_app. Qed.

Lemma stops_fired name (due : list timer) :
  stops name ((fun t => IoEmit (StopTypingMsg (timer_user t))) <$> due) =
  length (filter (fun t => timer_user t = name) due).
Proof.
  unfold stops. induction due as [|t due IH]; [done|]. csimpl.
  rewrite !filter_cons. repeat case_decide; simplify_eq; simpl; by rewrite ?IH.
Qed.

Lemma stops_elapse name ms st :
  stops name (on_elapse ms st).2 =
  length (filter (fun t => timer_due t ≤ clock st + ms) (timers_of name st)).
Proof.
  unfold on_elapse, timers_of. rewrite fire_unfold. simpl.
  rewrite stops_fired, !list_filter_filter. f_equal.
  apply list_filter_iff. naive_solver.
Qed.

Lemma timers_of_elapse name ms st :
  timers_of name (on_elapse ms st).1 =
  filter (fun t => ¬ timer_due t ≤ clock st + ms) (timers_of name st).
Proof.
  unfold on_elapse, timers_of. rewrite fire_unfold. simpl.
  rewrite !list_filter_filter. apply list_filter_iff. naive_solver.
Qed.

Lemma clock_elapse ms st : clock (on_elapse ms st).1 = clock st + ms.
Proof. unfold on_elapse. by rewrite fire_unfold. Qed.

(** Timers due by [a] fire first; those due by a later [b] are they and
    the ones among the rest that are due by [b]. *)
Lemma due_split (l : list timer) a b :
  a ≤ b →
  length (filter (fun t => timer_due t ≤ a) l) +
  length (filter (fun t => timer_due t ≤ b)
            (filter (fun t => ¬ timer_due t ≤ a) l)) =
  length (filter (fun t => timer_due t ≤ b) l).
Proof.
  intros Hab. induction l as [|t l IH]; [done|].
  rewrite !filter_cons.
  repeat (case_decide; simpl; rewrite ?filter_cons); lia.
Qed.

Lemma stops_none name out :
  IoEmit (StopTypingMsg name) ∉ out → stops name out = 0.
Proof.
  intros Hout. unfold stops. rewrite filter_none; [done|].
  by intros e He ->.
Qed.

Lemma starts_none name out :
  IoEmit (TypingMsg name) ∉ out → starts name out = 0.
Proof.
  intros Hout. unfold starts. rewrite filter_none; [done|].
  by intros e He ->.
Qed.

Lemma starts_app name out out' :
  starts name (out ++ out') = starts name out + starts name out'.
Proof. unfold starts. by rewrite filter_app, length_app. Qed.

(** ** Traces without a signal for a name *)

(** Closes the goal that an emission is not in an explicit list. *)
Ltac absent :=
  rewrite ?not_elem_of_cons; split_and?;
  try done; try congruence; try apply not_elem_of_nil.

Lemma elapse_or_not ev : (∃ ms, ev = Elapse ms) ∨ (∀ ms, ev ≠ Elapse ms).
Proof. destruct ev; eauto. Qed.

Lemma elapsed_cons_other ev evs :
  (∀ ms, ev ≠ Elapse ms) → elapsed (ev :: evs) = elapsed evs.
Proof. intros Hev. destruct ev; try done. by destruct (Hev ms). Qed.

Section Quiet_traces.
Variable compose : Delta → Delta → Delta.
Variable name : string.

(** An event other than the passing of time and other than a signal
    for [name] broadcasts no stop-typing for [name] and leaves the
    timers of [name] and the clock alone. *)
Lemma quiet_step st ev :
  timers_ok st → quiet name ev → (∀ ms, ev ≠ Elapse ms) →
  stops name (step compose st ev).2 = 0 ∧
  timers_of name (step compose st ev).1 = timers_of name st ∧
  clock (step compose st ev).1 = clock st.
Proof.
  intros Hok Hq Hev. destruct ev; simpl in *.
  - unfold on_join. repeat case_match; simpl; split_and!; try done;
      apply stops_none; absent.
  - split_and!; try done; apply stops_none; absent.
  - split_and!; try done; apply stops_none; absent.
  - split_and!.
    + rewrite handleTyping_unfold. simpl. apply stops_none.
      case_bool_decide; absent.
    + by apply timers_of_handleTyping_ne.
    + by rewrite handleTyping_unfold.
  - split_and!; try done; apply stops_none; absent.
  - unfold on_disconnect.
    repeat case_match; simplify_eq; simpl; split_and!; try done;
      apply stops_none; absent.
  - by destruct (Hev ms).
Qed.

Lemma starts_quiet_step st ev :
  quiet name ev → starts name (step compose st ev).2 = 0.
Proof.
  intros Hq. apply starts_none. destruct ev; simpl in *.
  - unfold on_join. repeat case_match; simpl; absent.
  - absent.
  - absent.
  - rewrite handleTyping_unfold. simpl. case_bool_decide; absent.
  - absent.
  - unfold on_disconnect. repeat case_match; simplify_eq; simpl; absent.
  - unfold on_elapse. rewrite fire_unfold. simpl.
    by intros (t & [=] & _)%list_elem_of_fmap.
Qed.

Lemma starts_quiet_run evs st :
  Forall (quiet name) evs → starts name (run compose evs st).2 = 0.
Proof.
  revert st. induction evs as [|ev evs IH]; intros st Hq; [done|].
  apply Forall_cons in Hq as [Hq Hqs].
  rewrite run_cons. simpl. rewrite starts_app, starts_quiet_step, IH; done.
Qed.

(** The stop-typing broadcasts for [name] along a trace without a signal
    for [name] are those of the timers of [name] that expire in the
    time the trace takes. *)
Lemma stops_quiet_run evs st :
  timers_ok st → Forall (quiet name) evs →
  stops name (run compose evs st).2 =
  length (filter (fun t => timer_due t ≤ clock st + elapsed evs)
            (timers_of name st)).
Proof.
  revert st. induction evs as [|ev evs IH]; intros st Hok Hq.
  - simpl. rewrite filter_none; [done|].
    intros t [_ Ht%(timer_soon _ Hok)]%list_elem_of_filter. lia.
  - apply Forall_cons in Hq as [Hq Hqs].
    rewrite run_cons. cbn [fst snd]. rewrite stops_app.
    rewrite IH by (by try apply timers_ok_step).
    destruct (elapse_or_not ev) as [[ms ->]|Hev].
    + cbn [step elapsed sum_list_with].
      rewrite stops_elapse, timers_of_elapse, clock_elapse.
      rewrite (Nat.add_assoc (clock st)). apply due_split. lia.
    + destruct (quiet_step st ev) as (-> & -> & ->); [done..|].
      by rewrite elapsed_cons_other.
Qed.

(** While the timer of [name] runs, no stop-typing signal for [name]
    arrives and its connection does not disconnect, [name] stays in the
    typing set. *)
Lemma typing_persists evs st :
  timers_ok st → Forall (quiet name) evs → keeps compose name evs st →
  name ∈ typingUsers st →
  (∀ t, t ∈ timers_of name st → clock st + elapsed evs < timer_due t) →
  name ∈ typingUsers (run compose evs st).1.
Proof.
  revert st. induction evs as [|ev evs IH]; intros st Hok Hq Hs Hin Hdue;
    [done|].
  apply Forall_cons in Hq as [Hq Hqs]. destruct Hs as [Hs Hss].
  rewrite run_cons. cbn [fst snd].
  apply IH; [by apply timers_ok_step|done..| |].
  - destruct ev; simpl in *; try done.
    + unfold on_join. by repeat case_match.
    + rewrite handleTyping_unfold. simpl. set_solver.
    + set_solver.
    + unfold on_disconnect.
      destruct (JsMap.get sid (users st)) as [username|]; [|done].
      destruct (truthy username); [|done]. simpl.
      apply elem_of_difference. split; [done|].
      intros ->%elem_of_singleton. done.
    + unfold on_elapse. rewrite fire_unfold. simpl.
      apply elem_of_difference. split; [done|].
      intros (t & Hu & [Hle Ht]%list_elem_of_filter)%elem_of_list_to_set
        %list_elem_of_fmap.
      assert (t ∈ timers_of name st) as Hlt%Hdue
        by by apply list_elem_of_filter.
      lia.
  - destruct (elapse_or_not ev) as [[ms ->]|Hev].
    + intros t. cbn [step]. rewrite timers_of_elapse, clock_elapse.
      intros [_ Ht%Hdue]%list_elem_of_filter. simpl in *. lia.
    + destruct (quiet_step st ev) as (_ & -> & ->); [done..|].
      intros t Ht%Hdue. by rewrite elapsed_cons_other in Ht.
Qed.

End Quiet_traces.

(** ** The document store *)

Section Document_store.
Variable compose : Delta → Delta → Delta.

Lemma document_run evs st :
  document (run compose evs st).1 =
  fold_left compose (edits evs) (document st).
Proof.
  revert st. induction evs as [|ev evs IH]; intros st; [done|].
  rewrite run_cons. simpl. rewrite IH.
  destruct ev; simpl; try done.
  - unfold on_join. by repeat case_match.
  - by rewrite handleTyping_unfold.
  - unfold on_disconnect. repeat case_match; by simplify_eq.
  - unfold on_elapse. by rewrite fire_unfold.
Qed.

(** C1 (as the code has it): the send-changes handler validates
    nothing.  Whatever the state and the edit, also when the edit's
    retain and delete spans exceed the length of the document, the edit
    is broadcast to the other connections under the sender's name and
    the stored document becomes [document.compose(edit)]; nothing else
    of the state changes. *)
Theorem send_changes_never_rejects st sid delta :
  let st' := (step compose st (SendChanges sid delta)).1 in
  let out := (step compose st (SendChanges sid delta)).2 in
  document st' = compose (document st) delta ∧
  out = [BroadcastEmit sid (ReceiveChanges delta (author sid st))] ∧
  users st' = users st ∧ typingUsers st' = typingUsers st ∧
  typingTimeouts st' = typingTimeouts st ∧ timers st' = timers st.
Proof.
  simpl. by split_and!.
Qed.

(** C2: after any trace of events, the stored document is the
    composition, from left to right and onto the empty document, of the
    edits of the send-changes events in the order the server received
    them, whichever connections sent them and whatever else happened in
    between. *)
Theorem document_is_composition evs :
  document (run compose evs initial).1 = fold_left compose (edits evs) [].
Proof. apply document_run. Qed.

End Document_store.

(** ** The session registry *)

(** C3: a join with a name that some connection already holds leaves the
    whole server state as it was and emits nothing but the failure
    acknowledgement to the requester (nothing at all when the client
    passed no acknowledgement function): no load-document, no
    user-list. *)
Theorem join_name_taken st sid sid' username callback :
  JsMap.get sid' (users st) = Some username →
  let st' := (on_join sid username callback st).1 in
  let out := (on_join sid username callback st).2 in
  st' = st ∧
  out = (if callback
         then [Callback sid false (Some "Username is already taken")]
         else []) ∧
  Forall (fun e => ∃ msg, e = Callback sid false msg) out.
Proof.
  intros Hheld%get_Some_values. unfold on_join.
  rewrite bool_decide_eq_true_2 by done. simpl.
  split_and!; [done..|]. destruct callback; repeat constructor. eauto.
Qed.

Lemma join_name_taken_witness :
  (on_join "s2" "alice" true two_users).1 = two_users ∧
  (on_join "s2" "alice" true two_users).2 =
    [Callback "s2" false (Some "Username is already taken")] ∧
  Forall (fun e => ∃ msg, e = Callback "s2" false msg)
    (on_join "s2" "alice" true two_users).2.
Proof.
  apply (join_name_taken two_users "s2" "s1" "alice" true). reflexivity.
Defined.

(** C1, as stated, fails: bob sends an edit that retains 5 characters of
    the 2-character document "hi".  The edit is broadcast and composed;
    the stored document changes and now holds a retain operation. *)
Lemma out_of_range_edit_is_applied :
  let delta := [retain (Fin 5); insert "!"] in
  doc_length (document two_users) < base_length delta ∧
  on_send_changes QuillDelta.compose "s2" delta two_users =
    (set_document [insert "hi"; retain (Fin 3); insert "!"] two_users,
     [BroadcastEmit "s2" (ReceiveChanges delta "bob")]) ∧
  document (on_send_changes QuillDelta.compose "s2" delta two_users).1
    ≠ document two_users.
Proof.
  simpl. split_and!; [vm_compute; lia | reflexivity | by vm_compute].
Qed.

(** The sender's own in-range edit, for comparison (the scenario of the
    specification): "hi" followed by retain(2) insert("!") is "hi!". *)
Example in_range_edit :
  document (on_send_changes QuillDelta.compose "s2" [retain (Fin 2); insert "!"]
              two_users).1 = [insert "hi!"].
Proof. reflexivity. Qed.

(** C5 (the code at the failing input): alice's connection closes while
    bob is connected.  The user-list is sent before [users.delete], so the
    list that is broadcast still names alice, while the registry left
    behind holds bob only. *)
Theorem disconnect_user_list_stale :
  (on_disconnect "s1" two_users).2 = [IoEmit (UserList ["alice"; "bob"])] ∧
  JsMap.values (users (on_disconnect "s1" two_users).1) = ["bob"].
Proof. split; reflexivity. Qed.

(** The same for every participant with a non-empty name: the list that
    is broadcast is the list of values before the removal, and names the
    participant that leaves. *)
Lemma disconnect_broadcasts_old_list st sid username :
  JsMap.get sid (users st) = Some username → truthy username = true →
  (on_disconnect sid st).2 = [IoEmit (UserList (JsMap.values (users st)))] ∧
  username ∈ JsMap.values (users st).
Proof.
  intros Hget Ht. unfold on_disconnect. rewrite Hget, Ht. simpl.
  split; [done|]. by eapply get_Some_values.
Qed.

(** ** Typing signals *)

(** C6 (as the code has it): an explicit stop-typing signal for a name
    that is not in the typing set leaves the server state as it was, and
    still broadcasts one stop-typing message for the name to every
    connection. *)
Theorem stop_typing_idle st username :
  username ∉ typingUsers st →
  on_stop_typing username st = (st, [IoEmit (StopTypingMsg username)]).
Proof.
  intros Hidle. unfold on_stop_typing, set_typingUsers.
  replace (typingUsers st ∖ {[username]}) with (typingUsers st) by set_solver.
  by destruct st.
Qed.

Lemma stop_typing_idle_witness :
  on_stop_typing "alice" two_users =
  (two_users, [IoEmit (StopTypingMsg "alice")]).
Proof. apply (stop_typing_idle two_users "alice"). by vm_compute. Defined.

(** C6, as stated, fails: alice is idle, and the stop-typing signal for
    her is broadcast all the same. *)
Lemma stop_typing_idle_is_broadcast :
  ("alice" ∉ typingUsers two_users) ∧
  (on_stop_typing "alice" two_users).2 ≠ [].
Proof. split; by vm_compute. Qed.

Section Typing_tracker.
Variable compose : Delta → Delta → Delta.

(** C4 (as the code has it): when a participant with a non-empty name
    that is in the typing set disconnects, the handler removes the name
    from the typing set and emits a single user-list broadcast: it
    broadcasts no stop-typing message, and it leaves the timers and the
    typing timeouts alone, so the timer of the name is not cancelled.
    The timer stays pending, and along any trace without a signal for the
    name that takes 1000 ms or more it broadcasts stop-typing for the
    name: from the disconnect on, exactly one stop-typing message for the
    name is broadcast, by the timer. *)
Theorem disconnect_while_typing st sid username :
  reachable compose st →
  JsMap.get sid (users st) = Some username → truthy username = true →
  username ∈ typingUsers st →
  let st' := (on_disconnect sid st).1 in
  let out := (on_disconnect sid st).2 in
  (username ∉ typingUsers st') ∧
  (∃ names, out = [IoEmit (UserList names)]) ∧
  stops username out = 0 ∧
  timers st' = timers st ∧ typingTimeouts st' = typingTimeouts st ∧
  length (timers_of username st') = 1 ∧
  ∀ evs, Forall (quiet username) evs → 1000 ≤ elapsed evs →
    stops username (run compose evs st').2 = 1 ∧
    stops username (run compose (Disconnect sid :: evs) st).2 = 1.
Proof.
  intros Hok%reachable_timers_ok Hget Ht Hin.
  pose proof (typing_one_timer _ _ Hok Hin) as Hone.
  assert (timers_ok (on_disconnect sid st).1) as Hok'.
  { apply (timers_ok_step compose st (Disconnect sid) Hok). }
  assert (∀ evs, Forall (quiet username) evs → 1000 ≤ elapsed evs →
            stops username (run compose evs (on_disconnect sid st).1).2 = 1)
    as Hlater.
  { intros evs Hq Hlong. rewrite stops_quiet_run by done.
    revert Hok'. unfold on_disconnect. rewrite Hget, Ht. simpl. intros Hok'.
    unfold timers_of in *. simpl. rewrite <-Hone. f_equal.
    apply filter_all. intros t [_ Ht']%list_elem_of_filter.
    apply (timer_soon _ Hok) in Ht'. lia. }
  assert ((on_disconnect sid st).2
            = [IoEmit (UserList (JsMap.values (users st)))]) as Hout.
  { unfold on_disconnect. by rewrite Hget, Ht. }
  assert (stops username (on_disconnect sid st).2 = 0) as Hnone.
  { rewrite Hout. apply stops_none. absent. }
  cbv zeta. split_and!.
  - unfold on_disconnect. rewrite Hget, Ht. simpl. set_solver.
  - by eexists.
  - done.
  - unfold on_disconnect. by rewrite Hget, Ht.
  - unfold on_disconnect. by rewrite Hget, Ht.
  - revert Hone. unfold on_disconnect, timers_of. by rewrite Hget, Ht.
  - intros evs Hq Hlong. split; [by apply Hlater|].
    rewrite run_cons. cbn [step fst snd].
    by rewrite stops_app, Hnone, Hlater.
Qed.

(** C7: a typing signal for a name broadcasts typing-started only when
    the name was not in the typing set.  After the signal, along any
    trace without a typing or stop-typing signal for the name: no
    typing-started is broadcast for it; if the trace takes 1000 ms or
    more, exactly one stop-typing is broadcast for it; if it takes less,
    none is, and (unless the connection registered under the name has
    disconnected) a repeated typing signal broadcasts nothing and leaves
    one pending timer for the name, a new one that expires 1000 ms after
    the repeated signal. *)
Theorem typing_window st name evs :
  reachable compose st → Forall (quiet name) evs →
  let st1 := (handleTyping name st).1 in
  let st2 := (run compose evs st1).1 in
  let out := (run compose evs st1).2 in
  (handleTyping name st).2 =
    (if bool_decide (name ∈ typingUsers st) then []
     else [IoEmit (TypingMsg name)]) ∧
  starts name out = 0 ∧
  (1000 ≤ elapsed evs → stops name out = 1) ∧
  (elapsed evs < 1000 →
     stops name out = 0 ∧
     (keeps compose name evs st1 →
        (handleTyping name st2).2 = [] ∧
        timers_of name (handleTyping name st2).1 =
          [mkTimer (next_timer st2) name (clock st2 + 1000)])).
Proof.
  intros Hok%reachable_timers_ok Hq.
  pose proof (timers_ok_handleTyping name st Hok) as Hok1.
  pose proof (timers_of_handleTyping name st Hok) as Htimer.
  assert (clock (handleTyping name st).1 = clock st) as Hclock
    by by rewrite handleTyping_unfold.
  assert (name ∈ typingUsers (handleTyping name st).1) as Hin
    by (rewrite handleTyping_unfold; set_solver).
  simpl. split_and!.
  - by rewrite handleTyping_unfold.
  - by apply starts_quiet_run.
  - intros Hlong. rewrite stops_quiet_run, Htimer, Hclock by done.
    rewrite filter_cons_True; [done | simpl; lia].
  - intros Hshort. split.
    + rewrite stops_quiet_run, Htimer, Hclock by done.
      rewrite filter_cons_False; [done | simpl; lia].
    + intros Hstay.
      pose proof (timers_ok_run compose evs _ Hok1) as Hok2.
      split; [|by apply timers_of_handleTyping].
      rewrite handleTyping_unfold. simpl.
      rewrite bool_decide_eq_true_2; [done|].
      apply typing_persists; try done.
      rewrite Htimer, Hclock. intros t ->%list_elem_of_singleton.
      simpl. lia.
Qed.


End Typing_tracker.

Lemma two_users_reachable : reachable QuillDelta.compose two_users.
Proof. by eexists. Qed.

Lemma alice_typing_reachable : reachable QuillDelta.compose alice_typing.
Proof.
  exists [Join "s1" "alice" true; Join "s2" "bob" true;
          SendChanges "s1" [insert "hi"]; Typing "s1" "alice"].
  reflexivity.
Qed.

Lemma disconnect_while_typing_witness :
  stops "alice" (on_disconnect "s1" alice_typing).2 = 0 ∧
  timers (on_disconnect "s1" alice_typing).1 = timers alice_typing ∧
  stops "alice"
    (run QuillDelta.compose
       [Disconnect "s1"; Elapse 400; Typing "s2" "bob"; Elapse 600]
       alice_typing).2 = 1.
Proof.
  destruct (disconnect_while_typing QuillDelta.compose alice_typing
              "s1" "alice") as (_ & _ & Hnone & Hkept & _ & _ & Hlater).
  - apply alice_typing_reachable.
  - reflexivity.
  - reflexivity.
  - by vm_compute.
  - split_and!; [exact Hnone | exact Hkept |].
    apply (Hlater [Elapse 400; Typing "s2" "bob"; Elapse 600]).
    + repeat constructor. simpl. discriminate.
    + vm_compute. lia.
Defined.

(** C4, as stated, fails: alice disconnects while she is typing.  The
    handler broadcasts the user-list and no stop-typing message, her
    timer is still pending afterwards, and it fires when its second is
    over. *)
Lemma disconnect_keeps_timer :
  ("alice" ∈ typingUsers alice_typing) ∧
  JsMap.get "s1" (users alice_typing) = Some "alice" ∧
  (on_disconnect "s1" alice_typing).2 = [IoEmit (UserList ["alice"; "bob"])] ∧
  timers (on_disconnect "s1" alice_typing).1 = [mkTimer 0 "alice" 1000] ∧
  (on_elapse 1000 (on_disconnect "s1" alice_typing).1).2 =
    [IoEmit (StopTypingMsg "alice")].
Proof. split_and!; by vm_compute. Qed.

Lemma typing_window_witness :
  stops "bob"
    (run QuillDelta.compose [Elapse 400; Typing "s1" "alice"; Elapse 700]
       (handleTyping "bob" alice_typing).1).2 = 1 ∧
  (handleTyping "bob"
     (run QuillDelta.compose [Elapse 400; Disconnect "s1"; Elapse 500]
        (handleTyping "bob" alice_typing).1).1).2 = [].
Proof.
  split.
  - apply (typing_window QuillDelta.compose alice_typing "bob"
             [Elapse 400; Typing "s1" "alice"; Elapse 700]).
    + apply alice_typing_reachable.
    + repeat constructor. simpl. discriminate.
    + vm_compute. lia.
  - apply (typing_window QuillDelta.compose alice_typing "bob"
             [Elapse 400; Disconnect "s1"; Elapse 500]).
    + apply alice_typing_reachable.
    + repeat constructor.
    + vm_compute. lia.
    + simpl. split_and!; done.
Defined.



(** ** Accepted joins *)

Lemma on_join_accepted sid username callback st :
  username ∉ JsMap.values (users st) →
  on_join sid username callback st =
  (set_users (JsMap.set sid username (users st)) st,
   [SocketEmit sid (LoadDocument (document st));
    IoEmit (UserList (JsMap.values (JsMap.set sid username (users st))))]
   ++ (if callback then [Callback sid true None] else [])).
Proof.
  intros Hfree. unfold on_join. by rewrite bool_decide_eq_false_2.
Qed.

(** C9 (as the code has it): an accepted join emits, in this order, the
    document to the joiner, the user-list to every connection, and then
    the success acknowledgement (when the client asked for one).  The
    user-list names the joiner and reaches the joiner, so the
    acknowledgement comes after the presence broadcast that includes the
    joiner, not before it. *)
Theorem join_accepted_order st sid username callback :
  username ∉ JsMap.values (users st) →
  let names := JsMap.values (users (on_join sid username callback st).1) in
  (on_join sid username callback st).2 =
    [SocketEmit sid (LoadDocument (document st)); IoEmit (UserList names)]
    ++ (if callback then [Callback sid true None] else []) ∧
  username ∈ names ∧
  delivered_to sid (IoEmit (UserList names)) = true.
Proof.
  intros Hfree. rewrite on_join_accepted by done. simpl.
  split_and!; [done | apply set_in_values | done].
Qed.

Lemma join_accepted_order_witness :
  (on_join "s3" "carol" true two_users).2 =
    [SocketEmit "s3" (LoadDocument [insert "hi"]);
     IoEmit (UserList ["alice"; "bob"; "carol"]);
     Callback "s3" true None].
Proof.
  apply (join_accepted_order two_users "s3" "carol" true).
  by apply (bool_decide_eq_false_1 _).
Defined.

(** C9, as stated, fails: carol's join is accepted, and the user-list
    that names her is emitted to every connection, hers included, before
    her acknowledgement. *)
Lemma ack_follows_presence :
  ("carol" ∉ JsMap.values (users two_users)) ∧
  (on_join "s3" "carol" true two_users).2 =
    [SocketEmit "s3" (LoadDocument [insert "hi"]);
     IoEmit (UserList ["alice"; "bob"; "carol"]);
     Callback "s3" true None] ∧
  ¬ ack_not_after_presence "s3" "carol" (on_join "s3" "carol" true two_users).2.
Proof.
  split_and!; [by apply (bool_decide_eq_false_1 _) | reflexivity |].
  intros Hclaim.
  specialize (Hclaim [SocketEmit "s3" (LoadDocument [insert "hi"]);
                      IoEmit (UserList ["alice"; "bob"; "carol"])] []
                eq_refl).
  apply Forall_cons in Hclaim as [_ Hclaim].
  apply Forall_cons in Hclaim as [Hclaim _].
  by vm_compute in Hclaim.
Qed.

(** ** Renaming by a second join *)

Lemma values_unique {V} (m : JsMap.t V) k k' v :
  NoDup (JsMap.values m) → (k, v) ∈ m → (k', v) ∈ m → k = k'.
Proof.
  unfold JsMap.values.
  induction m as [|[k0 v0] m IH]; csimpl; [by intros _ ?%elem_of_nil|].
  intros [Hv Hnd]%NoDup_cons [[= -> ->]|Hin]%elem_of_cons
    [[= -> ]|Hin']%elem_of_cons; try done.
  - destruct Hv. apply list_elem_of_fmap. by exists (k', v0).
  - subst. destruct Hv. apply list_elem_of_fmap. by exists (k, v0).
  - by apply IH.
Qed.

Section Rename.
Variable compose : Delta → Delta → Delta.

(** C10: in every state the server reaches a connection has at most
    one name.  When a connection that joined as [A] joins again with a
    name [B] nobody holds, the join is accepted: the entry of the
    connection is overwritten in place (no entry is added), the
    connection now maps to [B], the document and the whole user-list are
    sent again, and [A] is held by nobody any more, so that a join of
    any connection with the name [A] is accepted at once. *)
Theorem rejoin_renames st sid A B callback :
  reachable compose st →
  JsMap.get sid (users st) = Some A → B ∉ JsMap.values (users st) →
  let st' := (on_join sid B callback st).1 in
  NoDup (JsMap.keys (users st)) ∧
  NoDup (JsMap.keys (users st')) ∧
  JsMap.keys (users st') = JsMap.keys (users st) ∧
  JsMap.get sid (users st') = Some B ∧
  (A ∉ JsMap.values (users st')) ∧
  (on_join sid B callback st).2 =
    [SocketEmit sid (LoadDocument (document st));
     IoEmit (UserList (JsMap.values (users st')))]
    ++ (if callback then [Callback sid true None] else []) ∧
  ∀ sid2 callback2,
    JsMap.get sid2 (users (on_join sid2 A callback2 st').1) = Some A.
Proof.
  intros [Hk Hv]%reachable_registry_ok Hget Hfree.
  rewrite on_join_accepted by done. simpl.
  assert (A ∉ JsMap.values (JsMap.set sid B (users st))) as HA.
  { intros ([k v] & -> & Hin)%list_elem_of_fmap. simpl in *.
    apply elem_of_set in Hin as [[-> ->]|[Hne Hin]]; [| |done].
    - apply Hfree. by eapply get_Some_values.
    - apply Hne. eapply values_unique; [done..|].
      by apply get_Some_elem. }
  split_and!; try done.
  - by apply NoDup_keys_set.
  - rewrite keys_set, bool_decide_eq_true_2; [done|].
    apply dec_stable. intros Hnot%get_None_keys. congruence.
  - apply get_set_eq.
  - intros sid2 callback2. rewrite on_join_accepted by done.
    simpl. apply get_set_eq.
Qed.

End Rename.

Lemma rejoin_renames_witness :
  JsMap.values (users (on_join "s1" "alicia" true two_users).1)
    = ["alicia"; "bob"] ∧
  (on_join "s1" "alicia" true two_users).2 =
    [SocketEmit "s1" (LoadDocument [insert "hi"]);
     IoEmit (UserList ["alicia"; "bob"]);
     Callback "s1" true None] ∧
  JsMap.get "s3"
    (users (on_join "s3" "alice" true
              (on_join "s1" "alicia" true two_users).1).1) = Some "alice".
Proof.
  destruct (rejoin_renames QuillDelta.compose two_users "s1" "alice" "alicia" true)
    as (_ & _ & _ & _ & _ & Hout & Hfree).
  - apply two_users_reachable.
  - reflexivity.
  - by apply (bool_decide_eq_false_1 _).
  - split_and!; [reflexivity | exact Hout | apply Hfree].
Defined.


(** * Further properties of the server *)

(** ** The registry across joins and disconnects *)

Lemma delete_absent {V} (m : JsMap.t V) k :
  JsMap.get k m = None → JsMap.delete k m = m.
Proof.
  induction m as [|[k0 v0] m IH]; csimpl; [done|].
  destruct (String.eqb k0 k); [done|]. intros Hget. by rewrite IH.
Qed.

Lemma delete_set_new {V} (m : JsMap.t V) k v :
  JsMap.get k m = None → JsMap.delete k (JsMap.set k v m) = m.
Proof.
  induction m as [|[k0 v0] m IH]; csimpl.
  - by rewrite String.eqb_refl.
  - destruct (String.eqb k0 k) eqn:Hk; [done|]. csimpl. rewrite Hk.
    intros Hget. by rewrite IH.
Qed.

Lemma values_set_new {V} (m : JsMap.t V) k v :
  JsMap.get k m = None →
  JsMap.values (JsMap.set k v m) = JsMap.values m ++ [v].
Proof.
  unfold JsMap.values. induction m as [|[k0 v0] m IH]; csimpl; [done|].
  destruct (String.eqb k0 k); [done|]. csimpl. intros Hget. by rewrite IH.
Qed.

Lemma users_on_disconnect sid st :
  users (on_disconnect sid st).1 = JsMap.delete sid (users st).
Proof. unfold on_disconnect. by repeat case_match; simplify_eq. Qed.

Lemma set_users_same st : set_users (users st) st = st.
Proof. by destruct st. Qed.

(** X4: the disconnect of a connection that never joined (or whose join
    was rejected) changes nothing in the server and emits nothing. *)
Theorem disconnect_never_joined st sid :
  JsMap.get sid (users st) = None → on_disconnect sid st = (st, []).
Proof.
  intros Hget. unfold on_disconnect. rewrite Hget. simpl.
  by rewrite delete_absent, set_users_same.
Qed.

Lemma disconnect_never_joined_witness :
  on_disconnect "s9" two_users = (two_users, []).
Proof. apply (disconnect_never_joined two_users "s9"). reflexivity. Defined.

(** X6: a join of a new connection followed by its disconnect gives back
    the server state from before the join, when the name is not in the
    typing set. *)
Theorem join_then_disconnect st sid username callback :
  JsMap.get sid (users st) = None →
  username ∉ JsMap.values (users st) →
  username ∉ typingUsers st →
  (on_disconnect sid (on_join sid username callback st).1).1 = st.
Proof.
  intros Hget Hfree Hidle. rewrite on_join_accepted by done.
  unfold on_disconnect. simpl. rewrite get_set_eq.
  destruct (truthy username); simpl; unfold set_users, set_typingUsers; simpl;
    rewrite delete_set_new by done.
  - replace (typingUsers st ∖ {[username]}) with (typingUsers st)
      by set_solver.
    by destruct st.
  - by destruct st.
Qed.

Lemma join_then_disconnect_witness :
  (on_disconnect "s3" (on_join "s3" "carol" true two_users).1).1 = two_users.
Proof.
  apply (join_then_disconnect two_users "s3" "carol" true).
  - reflexivity.
  - by apply (bool_decide_eq_false_1 _).
  - by vm_compute.
Defined.

(** X7: the user-list follows the order of the joins: the accepted join
    of a new connection puts its name last, after the names that were
    there, and this is the list the join broadcasts. *)
Theorem join_appends_name st sid username callback :
  JsMap.get sid (users st) = None →
  username ∉ JsMap.values (users st) →
  JsMap.values (users (on_join sid username callback st).1) =
    JsMap.values (users st) ++ [username] ∧
  IoEmit (UserList (JsMap.values (users st) ++ [username]))
    ∈ (on_join sid username callback st).2.
Proof.
  intros Hget Hfree. rewrite on_join_accepted by done. simpl.
  rewrite values_set_new by done. split; [done|].
  apply elem_of_cons. right. apply elem_of_cons. by left.
Qed.

Lemma join_appends_name_witness :
  JsMap.values (users (on_join "s3" "carol" false two_users).1) =
    ["alice"; "bob"] ++ ["carol"] ∧
  IoEmit (UserList (["alice"; "bob"] ++ ["carol"]))
    ∈ (on_join "s3" "carol" false two_users).2.
Proof.
  apply (join_appends_name two_users "s3" "carol" false).
  - reflexivity.
  - by apply (bool_decide_eq_false_1 _).
Defined.

(** X5: the server accepts the empty name, and a participant registered
    under it is treated as anonymous by the truthiness tests: its edits
    are broadcast under the author name "Unknown", and its disconnect
    removes it from the registry without any broadcast and without
    touching the typing set. *)
Theorem empty_name_participant st sid callback :
  ("" ∉ JsMap.values (users st)) →
  let st1 := (on_join sid "" callback st).1 in
  JsMap.get sid (users st1) = Some "" ∧
  author sid st1 = "Unknown" ∧
  (on_disconnect sid st1).2 = [] ∧
  typingUsers (on_disconnect sid st1).1 = typingUsers st ∧
  JsMap.get sid (users (on_disconnect sid st1).1) = None.
Proof.
  intros Hfree. rewrite on_join_accepted by done. simpl.
  unfold author, on_disconnect. simpl. rewrite get_set_eq. simpl.
  split_and!; try done. apply get_delete_eq.
Qed.

Lemma empty_name_participant_witness :
  JsMap.get "s3" (users (on_join "s3" "" true two_users).1) = Some "" ∧
  author "s3" (on_join "s3" "" true two_users).1 = "Unknown" ∧
  (on_disconnect "s3" (on_join "s3" "" true two_users).1).2 = [].
Proof.
  destruct (empty_name_participant two_users "s3" true)
    as (Hget & Hauthor & Hout & _).
  - by apply (bool_decide_eq_false_1 _).
  - by split_and!.
Defined.

Section Registry.
Variable compose : Delta → Delta → Delta.

(** X1: whatever happened before, a get-document request is answered to
    the requester alone with the composition of all the edits received so
    far, and changes nothing in the server. *)
Theorem get_document_is_current evs sid :
  step compose (run compose evs initial).1 (GetDocument sid) =
  ((run compose evs initial).1,
   [SocketEmit sid (LoadDocument (fold_left compose (edits evs) []))]).
Proof.
  simpl. unfold on_get_document. by rewrite document_run.
Qed.

(** X2: in every state the server reaches, a name is held by one
    connection at most: two different connections in the registry have
    different names. *)
Theorem names_are_unique st sid1 sid2 name1 name2 :
  reachable compose st →
  sid1 ≠ sid2 →
  JsMap.get sid1 (users st) = Some name1 →
  JsMap.get sid2 (users st) = Some name2 →
  name1 ≠ name2.
Proof.
  intros [_ Hv]%reachable_registry_ok Hne H1%get_Some_elem H2%get_Some_elem
    <-.
  apply Hne. by eapply values_unique.
Qed.

(** X3: a disconnect frees the name at once: the connection is out of
    the registry, nobody holds its name any more, and a join of any
    connection with that name is accepted. *)
Theorem disconnect_frees_name st sid username sid2 callback :
  reachable compose st →
  JsMap.get sid (users st) = Some username →
  let st' := (on_disconnect sid st).1 in
  JsMap.get sid (users st') = None ∧
  (username ∉ JsMap.values (users st')) ∧
  JsMap.get sid2 (users (on_join sid2 username callback st').1)
    = Some username.
Proof.
  intros [Hk Hv]%reachable_registry_ok Hget. simpl.
  assert (username ∉ JsMap.values (users (on_disconnect sid st).1)) as Hfree.
  { rewrite users_on_disconnect.
    intros ([k v] & -> & [Hne Hin]%elem_of_delete)%list_elem_of_fmap.
    apply Hne. eapply values_unique; [done..|]. by apply get_Some_elem. }
  split_and!; [|done|].
  - rewrite users_on_disconnect. apply get_delete_eq.
  - rewrite on_join_accepted by done. apply get_set_eq.
Qed.

End Registry.

Lemma names_are_unique_witness : "alice" ≠ "bob".
Proof.
  apply (names_are_unique QuillDelta.compose two_users "s1" "s2").
  - apply two_users_reachable.
  - discriminate.
  - reflexivity.
  - reflexivity.
Defined.

Lemma disconnect_frees_name_witness :
  JsMap.get "s1" (users (on_disconnect "s1" two_users).1) = None ∧
  ("alice" ∉ JsMap.values (users (on_disconnect "s1" two_users).1)) ∧
  JsMap.get "s3"
    (users (on_join "s3" "alice" true (on_disconnect "s1" two_users).1).1)
    = Some "alice".
Proof.
  apply (disconnect_frees_name QuillDelta.compose two_users "s1" "alice"
           "s3" true).
  - apply two_users_reachable.
  - reflexivity.
Defined.


(** ** The typing set and its timers over time *)

Section Typing_decay.
Variable compose : Delta → Delta → Delta.

Lemma step_without_typing st ev :
  no_typing ev → (∀ ms, ev ≠ Elapse ms) →
  timers (step compose st ev).1 = timers st ∧
  clock (step compose st ev).1 = clock st.
Proof.
  intros Hq Hev. destruct ev; simpl in *; try done.
  - unfold on_join. by repeat case_match.
  - unfold on_disconnect. by repeat case_match; simplify_eq.
  - by destruct (Hev ms).
Qed.

(** Without typing signals no timer is started: a timer pending after the
    trace was pending before it and is not due by the end of it. *)
Lemma timers_without_typing evs st t :
  timers_ok st → Forall no_typing evs →
  t ∈ timers (run compose evs st).1 →
  t ∈ timers st ∧ clock st + elapsed evs < timer_due t.
Proof.
  revert st. induction evs as [|ev evs IH]; intros st Hok Hq Ht.
  - split; [done|]. apply (timer_soon _ Hok) in Ht. simpl. lia.
  - apply Forall_cons in Hq as [Hq Hqs].
    rewrite run_cons in Ht. cbn [fst snd] in Ht.
    apply IH in Ht as [Ht Hdue]; [|by apply timers_ok_step|done].
    destruct (elapse_or_not ev) as [[ms ->]|Hev].
    + cbn [step] in Ht, Hdue. rewrite clock_elapse in Hdue.
      unfold on_elapse in Ht. rewrite fire_unfold in Ht. simpl in Ht.
      apply list_elem_of_filter in Ht as [_ Ht].
      split; [done|]. simpl. lia.
    + destruct (step_without_typing st ev Hq Hev) as [Htimers Hclock].
      rewrite Htimers in Ht. rewrite Hclock in Hdue.
      by rewrite elapsed_cons_other.
Qed.

(** X8: the typing indicator decays by itself.  From any state the
    server reaches, after a trace without typing signals that takes
    1000 ms or more, nobody is in the typing set and no timer is
    pending. *)
Theorem typing_set_decays st evs :
  reachable compose st → Forall no_typing evs → 1000 ≤ elapsed evs →
  typingUsers (run compose evs st).1 = ∅ ∧
  timers (run compose evs st).1 = [].
Proof.
  intros Hok%reachable_timers_ok Hq Hlong.
  pose proof (timers_ok_run compose evs st Hok) as Hok'.
  assert (timers (run compose evs st).1 = []) as Hnone.
  { destruct (timers (run compose evs st).1) as [|t l] eqn:Hl; [done|].
    assert (t ∈ timers (run compose evs st).1) as Ht
      by (rewrite Hl; left).
    apply timers_without_typing in Ht as [Ht Hdue]; [|done..].
    apply (timer_soon _ Hok) in Ht. lia. }
  split; [|done]. apply elem_of_equiv_empty_L. intros name Hin.
  apply (typing_armed _ Hok') in Hin as (t & Ht & _).
  rewrite Hnone in Ht. by apply elem_of_nil in Ht.
Qed.

(** X9: an explicit stop-typing signal does not cancel the timer of the
    name.  After a typing signal for a name, an explicit stop-typing
    signal for it is broadcast at once, and along any following trace
    without a signal for the name that takes 1000 ms or more the timer
    broadcasts stop-typing for the name a second time. *)
Theorem explicit_stop_keeps_timer st sid name evs :
  reachable compose st → Forall (quiet name) evs → 1000 ≤ elapsed evs →
  let st1 := (handleTyping name st).1 in
  timers (on_stop_typing name st1).1 = timers st1 ∧
  stops name (on_stop_typing name st1).2 = 1 ∧
  stops name (run compose evs (on_stop_typing name st1).1).2 = 1 ∧
  stops name (run compose (StopTyping sid name :: evs) st1).2 = 2.
Proof.
  intros Hok%reachable_timers_ok Hq Hlong.
  pose proof (timers_ok_handleTyping name st Hok) as Hok1.
  pose proof (timers_of_handleTyping name st Hok) as Htimer.
  pose proof (timers_ok_step compose _ (StopTyping sid name) Hok1) as Hok2.
  assert (clock (handleTyping name st).1 = clock st) as Hclock
    by by rewrite handleTyping_unfold.
  assert (stops name (on_stop_typing name (handleTyping name st).1).2 = 1)
    as Hnow.
  { unfold on_stop_typing, stops. simpl. by rewrite filter_cons_True. }
  assert (stops name
            (run compose evs (on_stop_typing name (handleTyping name st).1).1).2
          = 1) as Hlater.
  { rewrite stops_quiet_run by done. unfold timers_of in *. simpl.
    rewrite Htimer, Hclock. rewrite filter_cons_True; [done | simpl; lia]. }
  cbv zeta. split_and!; try done.
  rewrite run_cons. cbn [step fst snd]. by rewrite stops_app, Hnow, Hlater.
Qed.

(** The typing timeouts only grow: no step removes an entry. *)
Lemma typingTimeouts_step st ev name :
  is_Some (typingTimeouts st !! name) →
  is_Some (typingTimeouts (step compose st ev).1 !! name).
Proof.
  intros Hsome. destruct ev; simpl; try done.
  - unfold on_join. by repeat case_match.
  - rewrite handleTyping_unfold. simpl. rewrite lookup_insert.
    by case_decide.
  - unfold on_disconnect. by repeat case_match; simplify_eq.
  - unfold on_elapse. by rewrite fire_unfold.
Qed.

Lemma typingTimeouts_run st evs name :
  is_Some (typingTimeouts st !! name) →
  is_Some (typingTimeouts (run compose evs st).1 !! name).
Proof.
  revert st. induction evs as [|ev evs IH]; intros st Hsome; [done|].
  rewrite run_cons. cbn [fst snd]. by apply IH, typingTimeouts_step.
Qed.

(** X10: the server never deletes an entry of [typingTimeouts]: every
    name for which a typing signal ever arrived keeps an entry, also
    after its timer has fired, after an explicit stop-typing and after
    the disconnect of its connection. *)
Theorem typing_timeouts_never_shrink st evs sid name :
  Typing sid name ∈ evs →
  is_Some (typingTimeouts (run compose evs st).1 !! name).
Proof.
  revert st. induction evs as [|ev evs IH]; intros st Hin.
  - by apply elem_of_nil in Hin.
  - rewrite run_cons. cbn [fst snd].
    apply elem_of_cons in Hin as [<-|Hin]; [|by apply IH].
    apply typingTimeouts_run. cbn [step]. rewrite handleTyping_unfold.
    simpl. rewrite lookup_insert_eq. by eexists.
Qed.

(** X11: in every state the server reaches a name has at most one
    pending timer, exactly one while it is in the typing set, and every
    pending timer expires within the coming 1000 ms. *)
Theorem one_timer_per_name st name :
  reachable compose st →
  length (timers_of name st) ≤ 1 ∧
  (name ∈ typingUsers st → length (timers_of name st) = 1) ∧
  Forall (fun t => clock st < timer_due t ≤ clock st + 1000) (timers st).
Proof.
  intros Hok%reachable_timers_ok. split_and!.
  - by apply at_most_one_timer.
  - by apply typing_one_timer.
  - apply Forall_forall. intros t Ht. by apply (timer_soon _ Hok).
Qed.

End Typing_decay.

Lemma typing_set_decays_witness :
  typingUsers
    (run QuillDelta.compose
       [Elapse 300; StopTyping "s1" "alice"; Disconnect "s1"; Elapse 700]
       alice_typing).1 = ∅ ∧
  timers
    (run QuillDelta.compose
       [Elapse 300; StopTyping "s1" "alice"; Disconnect "s1"; Elapse 700]
       alice_typing).1 = [].
Proof.
  apply (typing_set_decays QuillDelta.compose alice_typing).
  - apply alice_typing_reachable.
  - repeat constructor.
  - vm_compute. lia.
Defined.

Lemma explicit_stop_keeps_timer_witness :
  stops "bob"
    (run QuillDelta.compose
       [StopTyping "s2" "bob"; Elapse 400; Typing "s1" "alice"; Elapse 600]
       (handleTyping "bob" alice_typing).1).2 = 2.
Proof.
  apply (explicit_stop_keeps_timer QuillDelta.compose alice_typing "s2" "bob"
           [Elapse 400; Typing "s1" "alice"; Elapse 600]).
  - apply alice_typing_reachable.
  - repeat constructor. simpl. discriminate.
  - vm_compute. lia.
Defined.

Lemma typing_timeouts_never_shrink_witness :
  is_Some
    (typingTimeouts
       (run QuillDelta.compose
          [Typing "s2" "bob"; StopTyping "s2" "bob"; Elapse 1000;
           Disconnect "s2"] two_users).1 !! "bob").
Proof.
  apply (typing_timeouts_never_shrink QuillDelta.compose two_users _ "s2").
  left.
Defined.

Lemma one_timer_per_name_witness :
  length (timers_of "alice" alice_typing) = 1 ∧
  Forall (fun t => clock alice_typing < timer_due t
                   ≤ clock alice_typing + 1000) (timers alice_typing).
Proof.
  destruct (one_timer_per_name QuillDelta.compose alice_typing "alice")
    as (_ & Hone & Hsoon).
  - apply alice_typing_reachable.
  - split; [|exact Hsoon]. apply Hone. by vm_compute.
Defined.


(** * The lists the editor component shows *)

Lemma deliver_app cid out out' c :
  Editor.deliver cid (out ++ out') c =
  Editor.deliver cid out' (Editor.deliver cid out c).
Proof. unfold Editor.deliver. by rewrite fold_left_app. Qed.

(** What the stop-typing messages of the fired timers do to the component:
    the names of the timers leave the typing list, the user list stays. *)
Lemma deliver_fired cid (due : list timer) c :
  Editor.deliver cid
    ((fun t => IoEmit (StopTypingMsg (timer_user t))) <$> due) c =
  Editor.mkState (Editor.userList c)
    (filter (fun u => u ∉ timer_user <$> due) (Editor.typingUsers c)).
Proof.
  revert c. induction due as [|t due IH]; intros c; csimpl.
  - destruct c as [ul tu]. simpl. f_equal. symmetry. apply filter_all.
    intros u _. apply not_elem_of_nil.
  - change (Editor.deliver cid
              (IoEmit (StopTypingMsg (timer_user t))
               :: ((fun t => IoEmit (StopTypingMsg (timer_user t))) <$> due))
              c)
      with (Editor.deliver cid
              ((fun t => IoEmit (StopTypingMsg (timer_user t))) <$> due)
              (Editor.receive (StopTypingMsg (timer_user t)) c)).
    rewrite IH. simpl. f_equal. rewrite list_filter_filter.
    apply list_filter_iff. intros u. rewrite not_elem_of_cons. naive_solver.
Qed.

Section Editor_lists.
Variable compose : Delta → Delta → Delta.

(** The typing list of the component after the emissions of one step. *)
Lemma shown_typing_step st ev cid c :
  Editor.typingUsers (Editor.deliver cid (step compose st ev).2 c) =
  match ev with
  | Typing _ name =>
      if bool_decide (name ∈ typingUsers st) then Editor.typingUsers c
      else Editor.typingUsers c ++ [name]
  | StopTyping _ name => filter (fun u => u ≠ name) (Editor.typingUsers c)
  | Elapse ms =>
      filter (fun u => u ∉ timer_user <$>
                         filter (fun t => timer_due t ≤ clock st + ms)
                           (timers st))
        (Editor.typingUsers c)
  | _ => Editor.typingUsers c
  end.
Proof.
  destruct ev; simpl.
  - unfold on_join. repeat case_match; simpl; by repeat case_match.
  - by case_match.
  - by case_match.
  - rewrite handleTyping_unfold. simpl. by case_bool_decide.
  - done.
  - unfold on_disconnect. by repeat case_match; simplify_eq.
  - unfold on_elapse. rewrite fire_unfold. simpl. by rewrite deliver_fired.
Qed.

(** The typing set of the server after one step. *)
Lemma typingUsers_step st ev :
  typingUsers (step compose st ev).1 =
  match ev with
  | Typing _ name => {[name]} ∪ typingUsers st
  | StopTyping _ name => typingUsers st ∖ {[name]}
  | Disconnect sid =>
      match JsMap.get sid (users st) with
      | Some name =>
          if truthy name then typingUsers st ∖ {[name]} else typingUsers st
      | None => typingUsers st
      end
  | Elapse ms =>
      typingUsers st ∖
        list_to_set (timer_user <$>
                       filter (fun t => timer_due t ≤ clock st + ms)
                         (timers st))
  | _ => typingUsers st
  end.
Proof.
  destruct ev; simpl; try done.
  - unfold on_join. by repeat case_match.
  - by rewrite handleTyping_unfold.
  - unfold on_disconnect. by repeat case_match; simplify_eq.
  - unfold on_elapse. by rewrite fire_unfold.
Qed.

(** X12: a component that shows every name of the server's typing set
    keeps doing so for as long as its socket stays connected: it never
    misses a name that the server holds as typing. *)
Theorem shown_typing_covers st c cid evs :
  (∀ name, name ∈ typingUsers st → name ∈ Editor.typingUsers c) →
  Forall (stays_connected cid) evs →
  ∀ name,
    name ∈ typingUsers (run compose evs st).1 →
    name ∈ Editor.typingUsers (Editor.deliver cid (run compose evs st).2 c).
Proof.
  revert st c. induction evs as [|ev evs IH]; intros st c Hinv Hconn;
    [done|].
  apply Forall_cons in Hconn as [_ Hconn].
  rewrite run_cons. cbn [fst snd]. rewrite deliver_app.
  apply IH; [|done].
  intros name. rewrite typingUsers_step, shown_typing_step.
  destruct ev; try apply Hinv.
  - case_bool_decide as Hin; rewrite elem_of_union, elem_of_singleton.
    + intros [->|?]; auto.
    + rewrite elem_of_app, list_elem_of_singleton. naive_solver.
  - rewrite elem_of_difference, elem_of_singleton, list_elem_of_filter.
    naive_solver.
  - repeat case_match; try apply Hinv.
    rewrite elem_of_difference. naive_solver.
  - rewrite elem_of_difference, elem_of_list_to_set, list_elem_of_filter.
    naive_solver.
Qed.

(** X13: as long as nobody disconnects, the typing list of a component
    that agrees with the server's typing set and has no duplicates keeps
    agreeing with it and keeps having no duplicates. *)
Theorem shown_typing_exact st c cid evs :
  (∀ name, name ∈ typingUsers st ↔ name ∈ Editor.typingUsers c) →
  NoDup (Editor.typingUsers c) →
  Forall no_disconnect evs →
  let c' := Editor.deliver cid (run compose evs st).2 c in
  (∀ name,
     name ∈ typingUsers (run compose evs st).1 ↔
     name ∈ Editor.typingUsers c') ∧
  NoDup (Editor.typingUsers c').
Proof.
  revert st c. induction evs as [|ev evs IH]; intros st c Hinv Hnd Hq;
    [done|].
  apply Forall_cons in Hq as [Hq Hqs].
  rewrite run_cons. cbn [fst snd]. rewrite deliver_app.
  apply IH; [| |done].
  - intros name. rewrite typingUsers_step, shown_typing_step.
    destruct ev; try apply Hinv; try done.
    + case_bool_decide as Hin; rewrite elem_of_union, elem_of_singleton.
      * rewrite <-Hinv. naive_solver.
      * rewrite elem_of_app, list_elem_of_singleton, <-Hinv. naive_solver.
    + rewrite elem_of_difference, elem_of_singleton, list_elem_of_filter,
        <-Hinv.
      naive_solver.
    + rewrite elem_of_difference, elem_of_list_to_set, list_elem_of_filter,
        <-Hinv.
      naive_solver.
  - rewrite shown_typing_step. destruct ev; try done.
    + case_bool_decide as Hin; [done|]. apply NoDup_app. split_and!.
      * done.
      * intros name Hname ->%list_elem_of_singleton. by apply Hin, Hinv.
      * apply NoDup_singleton.
    + by apply NoDup_filter.
    + by apply NoDup_filter.
Qed.

(** The user list of the component after the emissions of one step. *)
Lemma shown_users_step st ev cid c :
  Editor.userList (Editor.deliver cid (step compose st ev).2 c) =
  match ev with
  | Join sid username _ =>
      if bool_decide (username ∈ JsMap.values (users st))
      then Editor.userList c
      else JsMap.values (JsMap.set sid username (users st))
  | Disconnect sid =>
      match JsMap.get sid (users st) with
      | Some name =>
          if truthy name then JsMap.values (users st) else Editor.userList c
      | None => Editor.userList c
      end
  | _ => Editor.userList c
  end.
Proof.
  destruct ev; simpl.
  - unfold on_join. repeat case_match; simpl; by repeat case_match.
  - by case_match.
  - by case_match.
  - rewrite handleTyping_unfold. simpl. by case_bool_decide.
  - done.
  - unfold on_disconnect. by repeat case_match; simplify_eq.
  - unfold on_elapse. rewrite fire_unfold. simpl. by rewrite deliver_fired.
Qed.

(** X14: the user list of a component never misses a registered name
    for as long as its socket stays connected.  If the names of the
    registry are, in order, among the names the component lists, they
    still are after any trace in which its socket does not disconnect. *)
Theorem shown_users_cover st c cid evs :
  JsMap.values (users st) `sublist_of` Editor.userList c →
  Forall (stays_connected cid) evs →
  JsMap.values (users (run compose evs st).1) `sublist_of`
    Editor.userList (Editor.deliver cid (run compose evs st).2 c).
Proof.
  revert st c. induction evs as [|ev evs IH]; intros st c Hinv Hconn;
    [done|].
  apply Forall_cons in Hconn as [_ Hconn].
  rewrite run_cons. cbn [fst snd]. rewrite deliver_app.
  apply IH; [|done].
  rewrite shown_users_step.
  destruct ev; simpl; try done.
  - unfold on_join. by case_bool_decide.
  - by rewrite handleTyping_unfold.
  - rewrite users_on_disconnect.
    assert (JsMap.values (JsMap.delete sid (users st))
              `sublist_of` JsMap.values (users st)) as Hsub
      by apply fmap_sublist, delete_sublist.
    repeat case_match; try done; by etrans.
  - unfold on_elapse. by rewrite fire_unfold.
Qed.

(** X15: an accepted join brings the user list of every connected
    component, the joiner's and the others', to the names of the
    registry, the joiner's included. *)
Theorem join_syncs_user_lists st sid username callback cid c :
  username ∉ JsMap.values (users st) →
  let st' := (on_join sid username callback st).1 in
  let c' := Editor.deliver cid (on_join sid username callback st).2 c in
  Editor.userList c' = JsMap.values (users st') ∧
  username ∈ Editor.userList c' ∧
  Editor.typingUsers c' = Editor.typingUsers c.
Proof.
  intros Hfree. rewrite on_join_accepted by done. simpl.
  split_and!.
  - destruct callback; simpl; by repeat case_match.
  - destruct callback; simpl; repeat case_match; simpl; apply set_in_values.
  - destruct callback; simpl; by repeat case_match.
Qed.

End Editor_lists.

Lemma shown_typing_covers_witness :
  "alice" ∈ Editor.typingUsers
    (Editor.deliver "s2"
       (run QuillDelta.compose
          [Join "s1" "alice" true; Typing "s1" "alice"; Disconnect "s1";
           Typing "s2" "alice"] initial).2 Editor.initial).
Proof.
  apply (shown_typing_covers QuillDelta.compose initial Editor.initial "s2"
           [Join "s1" "alice" true; Typing "s1" "alice"; Disconnect "s1";
            Typing "s2" "alice"]).
  - intros name Hin. by apply not_elem_of_empty in Hin.
  - repeat constructor. simpl. discriminate.
  - by vm_compute.
Defined.

Lemma shown_typing_exact_witness :
  NoDup
    (Editor.typingUsers
       (Editor.deliver "s2"
          (run QuillDelta.compose
             [Typing "s1" "alice"; Typing "s2" "bob"; Elapse 300;
              Typing "s1" "alice"; StopTyping "s2" "bob"] initial).2
          Editor.initial)).
Proof.
  apply (shown_typing_exact QuillDelta.compose initial Editor.initial "s2"
           [Typing "s1" "alice"; Typing "s2" "bob"; Elapse 300;
            Typing "s1" "alice"; StopTyping "s2" "bob"]).
  - intros name. split; intros Hin.
    + by apply not_elem_of_empty in Hin.
    + by apply elem_of_nil in Hin.
  - apply NoDup_nil_2.
  - repeat constructor.
Defined.

Lemma shown_users_cover_witness :
  JsMap.values
    (users (run QuillDelta.compose
              [Join "s1" "alice" true; Join "s2" "bob" true; Disconnect "s1"]
              initial).1)
  `sublist_of`
  Editor.userList
    (Editor.deliver "s2"
       (run QuillDelta.compose
          [Join "s1" "alice" true; Join "s2" "bob" true; Disconnect "s1"]
          initial).2 Editor.initial).
Proof.
  apply (shown_users_cover QuillDelta.compose initial Editor.initial "s2").
  - simpl. constructor.
  - repeat constructor. simpl. discriminate.
Defined.

Lemma join_syncs_user_lists_witness :
  Editor.userList
    (Editor.deliver "s1" (on_join "s3" "carol" true two_users).2
       Editor.initial) = ["alice"; "bob"; "carol"].
Proof.
  apply (join_syncs_user_lists two_users "s3" "carol" true "s1"
           Editor.initial).
  by apply (bool_decide_eq_false_1 _).
Defined.

(** ** Events that only read *)

Section Passive_events.
Variable compose : Delta → Delta → Delta.

(** X16: get-document requests, typing and stop-typing signals and the
    expiry of timers never change the document or the registry. *)
Theorem passive_events_keep_document_and_users st evs :
  Forall passive evs →
  document (run compose evs st).1 = document st ∧
  users (run compose evs st).1 = users st.
Proof.
  revert st. induction evs as [|ev evs IH]; intros st Hp; [done|].
  apply Forall_cons in Hp as [Hp Hps].
  rewrite run_cons. cbn [fst snd].
  destruct (IH (step compose st ev).1 Hps) as [-> ->].
  destruct ev; simpl in *; try done.
  - by rewrite handleTyping_unfold.
  - unfold on_elapse. by rewrite fire_unfold.
Qed.

End Passive_events.

Lemma passive_events_keep_document_and_users_witness :
  document
    (run QuillDelta.compose
       [Typing "s1" "alice"; GetDocument "s2"; Elapse 1000;
        StopTyping "s1" "alice"] two_users).1 = document two_users ∧
  users
    (run QuillDelta.compose
       [Typing "s1" "alice"; GetDocument "s2"; Elapse 1000;
        StopTyping "s1" "alice"] two_users).1 = users two_users.
Proof.
  apply (passive_events_keep_document_and_users QuillDelta.compose two_users).
  repeat constructor.
Defined.
